(** * miko: the run supervisor of [main.go]

    A shallow embedding of the run life cycle of miko (a Tk front end that
    runs the external engine [mito]): the [Run] and [Cancel] button commands,
    the method [mito], the two stream reader goroutines, the reaping goroutine
    and the poll ticker, followed by the properties proved about them.

    Calls into the operating system and into Go's standard library are
    modelled by their effect on an explicit state ([os_state]) and by the
    answers they give, which are inputs of the model ([mito_env], the
    [Decode] and [Scan] results). *)

From Stdlib Require Import Ascii String.
From stdpp Require Import gmap strings list fin_maps pretty.

Set Warnings "-register-all".

Local Open Scope string_scope.
Local Open Scope list_scope.

(** ** Go errors

    The error values the program tells apart: the sentinels [io.EOF] and
    [fs.ErrClosed], [*fs.PathError] values, errors that wrap another error
    ([Unwrap]), and every other error, known by its text only. *)
Inductive error : Type :=
| io_EOF
| fs_ErrClosed
| PathError (Op Path : string) (Err : error)
| Wrapped (msg : string) (inner : error)
| Opaque (msg : string).

(** [err.Error()] *)
Fixpoint Error (e : error) : string :=
  match e with
  | io_EOF => "EOF"
  | fs_ErrClosed => "file already closed"
  | PathError op path inner => op +:+ " " +:+ path +:+ ": " +:+ Error inner
  | Wrapped msg inner => msg +:+ ": " +:+ Error inner
  | Opaque msg => msg
  end.

(** [err == io.EOF]: identity with the sentinel, not a match along the
    [Unwrap] chain. *)
Definition is_EOF (e : error) : bool :=
  match e with io_EOF => true | _ => false end.

(** [errors.As(err, &pe)] for [pe *fs.PathError]: the first [*fs.PathError]
    along the [Unwrap] chain of [err]; the result is [pe.Err]. *)
Fixpoint errors_As_PathError (e : error) : option error :=
  match e with
  | PathError _ _ inner => Some inner
  | Wrapped _ inner => errors_As_PathError inner
  | _ => None
  end.

(** [errors.As(err, &pe) && pe.Err == fs.ErrClosed] *)
Definition is_closed_pipe (e : error) : bool :=
  match errors_As_PathError e with
  | Some fs_ErrClosed => true
  | _ => false
  end.

(** The second case of both readers' switch (lines 422 and 440):
    [err == io.EOF, errors.As(err, &pe) && pe.Err == fs.ErrClosed]. *)
Definition normal_end (e : error) : bool := is_EOF e || is_closed_pipe e.

(** ** The world outside the program *)

(** A process handle ([*os.Process]); the number tells handles apart. *)
Definition Process := nat.

(** What the program asks of the operating system, in program order. *)
Inductive effect : Type :=
| EMkdirTemp (dir : string)
| EWriteFile (path content : string)
| ERemoveAll (dir : string)
| ESpawn (args : list string) (p : Process)
| EKill (p : Process)
| EWait (p : Process).

(** [fs]: the regular files on disk, path to content. [effects]: the calls
    made so far, oldest first. [logs]: the lines written with
    [log.Println]. *)
Record os_state : Type := {
  fs : gmap string string;
  effects : list effect;
  logs : list string
}.

(** [filepath.Join(dir, name)] for the clean, non-empty [dir] that
    [os.MkdirTemp] returns and a plain file name. *)
Definition filepath_Join (dir name : string) : string := dir +:+ "/" +:+ name.

(** [path] lies inside directory [dir]. *)
Definition inside (dir path : string) : bool := String.prefix (dir +:+ "/") path.

Definition do_effect (e : effect) (os : os_state) : os_state :=
  {| fs := fs os; effects := effects os ++ [e]; logs := logs os |}.

(** [os.MkdirTemp("", "miko-*")] when it succeeds with [dir]. The directory
    is new, so it adds no file. *)
Definition os_MkdirTemp (dir : string) (os : os_state) : os_state :=
  do_effect (EMkdirTemp dir) os.

(** The answer of one [os.WriteFile] call. A failed call can leave the file
    behind, empty or partly written ([left]). *)
Inductive write_outcome : Type :=
| WriteOk
| WriteErr (e : error) (left : option string).

Definition os_WriteFile (path content : string) (o : write_outcome)
    (os : os_state) : option error * os_state :=
  let os' := do_effect (EWriteFile path content) os in
  match o with
  | WriteOk =>
      (None, {| fs := <[path := content]> (fs os'); effects := effects os'; logs := logs os' |})
  | WriteErr e None => (Some e, os')
  | WriteErr e (Some part) =>
      (Some e, {| fs := <[path := part]> (fs os'); effects := effects os'; logs := logs os' |})
  end.

(** [os.RemoveAll(dir)]: every file inside [dir] goes. The program drops the
    call's result; the model is the call that succeeds. *)
Definition os_RemoveAll (dir : string) (os : os_state) : os_state :=
  let os' := do_effect (ERemoveAll dir) os in
  {| fs := filter (λ kv, inside dir kv.1 = false) (fs os');
     effects := effects os'; logs := logs os' |}.

(** [log.Println(err)] *)
Definition log_Println (e : error) (os : os_state) : os_state :=
  {| fs := fs os; effects := effects os; logs := logs os ++ [Error e] |}.

(** The line feed the program appends to what it inserts in the display. *)
Definition newline : string := String (Ascii.ascii_of_nat 10) EmptyString.

(** ** The [miko] struct *)

(** [text]: one unit handed to the display, with its tag. *)
Record text : Type := { text_data : string; text_tag : string }.

(** The fields of [miko] the run life cycle uses. The three input widgets
    are their contents ([m.src.Text()] and so on), the display widget is the
    list of tagged insertions made into it. The [results] channel is part of
    the goroutine system below. *)
Record miko : Type := {
  ps : option Process;
  src : string;
  data : string;
  cfg : string;
  display : list text;
  insecure : bool;
  logRequests : bool;
  dumpCrash : bool
}.

Definition set_ps (p : option Process) (m : miko) : miko :=
  {| ps := p; src := src m; data := data m; cfg := cfg m; display := display m;
     insecure := insecure m; logRequests := logRequests m; dumpCrash := dumpCrash m |}.

Definition display_Insert (t : text) (m : miko) : miko :=
  {| ps := ps m; src := src m; data := data m; cfg := cfg m;
     display := display m ++ [t];
     insecure := insecure m; logRequests := logRequests m; dumpCrash := dumpCrash m |}.

(** The method [printError]. *)
Definition printError (err : option error) (m : miko) : miko :=
  match err with
  | None => m
  | Some e => display_Insert {| text_data := Error e +:+ newline; text_tag := "error" |} m
  end.

(** ** The method [mito] *)

(** The answers the operating system gives during one call of [mito]. *)
Record mito_env : Type := {
  MkdirTemp_res : string + error;
  WriteFile_data : write_outcome;
  WriteFile_cfg : write_outcome;
  WriteFile_src : write_outcome;
  StdoutPipe_err : option error;
  StderrPipe_err : option error;
  Start_res : Process + error
}.

(** The part of [mito] that can return early with an error: a state and
    error monad over [os_state]. *)
Definition M (A : Type) : Type := os_state → (A + error) * os_state.

#[global] Instance M_ret : MRet M := λ A a os, (inl a, os).

#[global] Instance M_bind : MBind M := λ A B k c os,
  match c os with
  | (inl a, os') => k a os'
  | (inr e, os') => (inr e, os')
  end.

(** [err = os.WriteFile(...); if err != nil { return nil, err }] *)
Definition WriteFile_or_return (path content : string) (o : write_outcome) : M unit :=
  λ os, match os_WriteFile path content o os with
        | (None, os') => (inl tt, os')
        | (Some e, os') => (inr e, os')
        end.

(** Lines 362 to 395: write the inputs and build the argument list. *)
Definition mito_args (m : miko) (dir : string) (env : mito_env) : M (list string) :=
  let args : list string := [] in
  args ← (if decide (data m = "") then mret args
          else
            let dataPath := filepath_Join dir "data.json" in
            WriteFile_or_return dataPath (data m) (WriteFile_data env);;
            mret (args ++ ["-data"; dataPath]));
  args ← (if decide (cfg m = "") then mret args
          else
            let cfgPath := filepath_Join dir "cfg.yml" in
            WriteFile_or_return cfgPath (cfg m) (WriteFile_cfg env);;
            mret (args ++ ["-cfg"; cfgPath]));
  let args := if insecure m then args ++ ["-insecure"] else args in
  let args := if logRequests m then args ++ ["-log_requests"] else args in
  let args := if dumpCrash m then args ++ ["-dump"; "error"] else args in
  let srcPath := filepath_Join dir "src.cel" in
  WriteFile_or_return srcPath (src m) (WriteFile_src env);;
  mret (args ++ [srcPath]).

(** The goroutines one call of [mito] has started when it returns: the two
    stream readers (lines 407 and 430) and, when [cmd.Start] succeeded, the
    reaping goroutine (line 451) with the process it waits for. *)
Record launched : Type := {
  l_dir : string;
  l_keep : bool;
  l_reaper : option Process
}.

(** What [mito] returns, and what it leaves running. *)
Record mito_result : Type := {
  ret_ps : option Process;
  ret_err : option error;
  goroutines : option launched
}.

Definition returns (p : option Process) (e : option error) (g : option launched) : mito_result :=
  {| ret_ps := p; ret_err := e; goroutines := g |}.

Definition mito (m : miko) (keep : bool) (env : mito_env) (os : os_state)
    : mito_result * os_state :=
  if decide (src m = "") then (returns None None None, os)
  else
    match MkdirTemp_res env with
    | inr e => (returns None (Some e) None, os)
    | inl dir =>
        let os := os_MkdirTemp dir os in
        (* cmd is nil until line 396; the deferred function removes dir
           when mito returns before that line *)
        match mito_args m dir env os with
        | (inr e, os) => (returns None (Some e) None, os_RemoveAll dir os)
        | (inl args, os) =>
            (* cmd = execabs.Command("mito", args...) *)
            match StdoutPipe_err env with
            | Some e => (returns None (Some e) None, os)
            | None =>
                match StderrPipe_err env with
                | Some e => (returns None (Some e) None, os)
                | None =>
                    let readers := {| l_dir := dir; l_keep := keep; l_reaper := None |} in
                    match Start_res env with
                    | inr e => (returns None (Some e) (Some readers), os)
                    | inl p =>
                        (returns (Some p) None
                           (Some {| l_dir := dir; l_keep := keep; l_reaper := Some p |}),
                         do_effect (ESpawn args p) os)
                    end
                end
            end
        end
    end.

(** ** The button commands *)

(** The [Run] command (lines 136 to 148). [kill_res] is what [ps.Kill()]
    answers if it is called. *)
Definition Run_command (kill_res : option error) (env : mito_env)
    (m : miko) (os : os_state) : miko * os_state * option launched :=
  let '(m, os) :=
    match ps m with
    | Some p => (printError kill_res m, do_effect (EKill p) os)
    | None => (m, os)
    end in
  let '(r, os) := mito m false env os in
  let m := set_ps (ret_ps r) m in
  let m := printError (ret_err r) m in
  (m, os, goroutines r).

(** The [Cancel] command (lines 177 to 184). *)
Definition Cancel_command (kill_res : option error) (m : miko) (os : os_state)
    : miko * os_state :=
  match ps m with
  | Some p => (printError kill_res m, do_effect (EKill p) os)
  | None => (m, os)
  end.

(** ** The goroutines of a run *)

(** What one iteration of a reader's loop does: hand a [text] to the
    [results] channel and loop, or return, after [log.Println] or silently. *)
Inductive turn : Type :=
| Send (t : text)
| Return (logged : option error).

(** One [sc.Scan()] of the [bufio.Scanner] on the diagnostic stream: a
    token, or the end of the scan with the read result that ended it
    ([io.EOF] when the stream simply ended). *)
Inductive scan : Type :=
| Token (line : string)
| Stop (read_err : error).

(** [sc.Err()]: the first error the scanner met that is not [io.EOF]. *)
Definition Scanner_Err (read_err : error) : option error :=
  if is_EOF read_err then None else Some read_err.

(** The loop of the diagnostic reader (lines 433 to 445) on the next answer
    of the scanner. *)
Definition stderr_turn (r : scan) : turn :=
  match r with
  | Token line => Send {| text_data := line; text_tag := "error" |}
  | Stop read_err =>
      match Scanner_Err read_err with
      | None => Return None
      | Some err => if normal_end err then Return None else Return (Some err)
      end
  end.

(** Where a reader goroutine stands: about to read, blocked in
    [m.results <- t], or returned. *)
Inductive reader_pc : Type :=
| Reading
| Sending (t : text)
| Returned.

(** Where the reaping goroutine (lines 451 to 459) stands. *)
Inductive reaper_pc : Type :=
| AwaitStdout
| AwaitStderr
| AtWait
| AtStore
| AtRemoveAll
| Reaped.

(** The three statements after the two receives: [finalize] in the words of
    the design notes. *)
Definition finalizing (pc : reaper_pc) : bool :=
  match pc with
  | AtWait | AtStore | AtRemoveAll => true
  | _ => false
  end.

(** The goroutines of one run. [ctxStdout_done] and [ctxStderr_done] are the
    two contexts' [Done] channels: closed ([true]) by the deferred cancel
    call of the reader when it returns. *)
Record run : Type := {
  run_dir : string;
  run_keep : bool;
  stdout_pc : reader_pc;
  stderr_pc : reader_pc;
  ctxStdout_done : bool;
  ctxStderr_done : bool;
  reaper : option (Process * reaper_pc)
}.

Definition new_run (l : launched) : run :=
  {| run_dir := l_dir l; run_keep := l_keep l;
     stdout_pc := Reading; stderr_pc := Reading;
     ctxStdout_done := false; ctxStderr_done := false;
     reaper := match l_reaper l with
               | Some p => Some (p, AwaitStdout)
               | None => None
               end |}.

(** The program while it runs: the [miko] value, the outside world and the
    goroutines of every run started so far, oldest first. *)
Record system : Type := {
  sys_m : miko;
  sys_os : os_state;
  runs : list run
}.

Inductive stream : Type := Stdout | Stderr.

(** The ticker's function (lines 290 to 299) receiving [t]. *)
Definition ticker_receive (t : text) (m : miko) : miko :=
  display_Insert {| text_data := text_data t +:+ newline; text_tag := text_tag t |} m.

(** The statements of the reaping goroutine after the two receives, in one
    piece. *)
Definition finalize (keep : bool) (dir : string) (p : Process)
    (m : miko) (os : os_state) : miko * os_state :=
  let os := do_effect (EWait p) os in
  let m := set_ps None m in
  let os := if keep then os else os_RemoveAll dir os in
  (m, os).

Definition set_inputs (s d c : string) (i l dc : bool) (m : miko) : miko :=
  {| ps := ps m; src := s; data := d; cfg := c; display := display m;
     insecure := i; logRequests := l; dumpCrash := dc |}.

Section Goroutines.

(** What [dec.Decode(&v)] stores in [v], and
    [json.MarshalIndent(v, "", "\t")]. *)
Context {value : Type} (MarshalIndent : value → string + error).

(** The loop of the record reader (lines 410 to 428) on the next answer
    of [dec.Decode]. *)
Definition stdout_turn (r : value + error) : turn :=
  match r with
  | inl v =>
      match MarshalIndent v with
      | inl b => Send {| text_data := b; text_tag := "output" |}
      | inr err => Return (Some err)
      end
  | inr err => if normal_end err then Return None else Return (Some err)
  end.

(** One move of the program. A button command runs as one move (Tk runs
    one command at a time). [LDecode i r] and [LScan i r]: the reader of
    run [i] gets answer [r] from its stream. [LTick]: the ticker fires and
    receives from the named reader, or takes the default case.
    [LReaper i]: the reaping goroutine of run [i] makes its next move.
    [LInput]: the user edits the inputs. *)
Inductive label : Type :=
| LRun (kill_res : option error) (env : mito_env)
| LCancel (kill_res : option error)
| LInput (s d c : string) (i l dc : bool)
| LDecode (i : nat) (r : value + error)
| LScan (i : nat) (r : scan)
| LTick (from : option (nat * stream))
| LReaper (i : nat).

(** A reader takes its turn: it blocks in the send, or it logs (or not),
    returns, and its deferred cancel call closes [Done]. *)
Definition reader_moves (t : turn) (os : os_state) : reader_pc * bool * os_state :=
  match t with
  | Send x => (Sending x, false, os)
  | Return None => (Returned, true, os)
  | Return (Some err) => (Returned, true, log_Println err os)
  end.

Definition step_stdout (r : run) (res : value + error) (os : os_state)
    : option (run * os_state) :=
  match stdout_pc r with
  | Reading =>
      let '(pc, fired, os') := reader_moves (stdout_turn res) os in
      Some ({| run_dir := run_dir r; run_keep := run_keep r;
               stdout_pc := pc; stderr_pc := stderr_pc r;
               ctxStdout_done := ctxStdout_done r || fired;
               ctxStderr_done := ctxStderr_done r;
               reaper := reaper r |}, os')
  | _ => None
  end.

Definition step_stderr (r : run) (res : scan) (os : os_state)
    : option (run * os_state) :=
  match stderr_pc r with
  | Reading =>
      let '(pc, fired, os') := reader_moves (stderr_turn res) os in
      Some ({| run_dir := run_dir r; run_keep := run_keep r;
               stdout_pc := stdout_pc r; stderr_pc := pc;
               ctxStdout_done := ctxStdout_done r;
               ctxStderr_done := ctxStderr_done r || fired;
               reaper := reaper r |}, os')
  | _ => None
  end.

(** The ticker receives from a reader blocked in its send; the reader goes
    back to reading. *)
Definition step_receive (r : run) (from : stream) : option (text * run) :=
  match from with
  | Stdout =>
      match stdout_pc r with
      | Sending t =>
          Some (t, {| run_dir := run_dir r; run_keep := run_keep r;
                      stdout_pc := Reading; stderr_pc := stderr_pc r;
                      ctxStdout_done := ctxStdout_done r;
                      ctxStderr_done := ctxStderr_done r;
                      reaper := reaper r |})
      | _ => None
      end
  | Stderr =>
      match stderr_pc r with
      | Sending t =>
          Some (t, {| run_dir := run_dir r; run_keep := run_keep r;
                      stdout_pc := stdout_pc r; stderr_pc := Reading;
                      ctxStdout_done := ctxStdout_done r;
                      ctxStderr_done := ctxStderr_done r;
                      reaper := reaper r |})
      | _ => None
      end
  end.

Definition set_reaper (pc : option (Process * reaper_pc)) (r : run) : run :=
  {| run_dir := run_dir r; run_keep := run_keep r;
     stdout_pc := stdout_pc r; stderr_pc := stderr_pc r;
     ctxStdout_done := ctxStdout_done r; ctxStderr_done := ctxStderr_done r;
     reaper := pc |}.

(** The next statement of the reaping goroutine. The two receives
    [<-ctxStdout.Done()] and [<-ctxStderr.Done()] can move only once the
    channel is closed. *)
Definition step_reaper (r : run) (m : miko) (os : os_state)
    : option (run * miko * os_state) :=
  match reaper r with
  | Some (p, AwaitStdout) =>
      if ctxStdout_done r then Some (set_reaper (Some (p, AwaitStderr)) r, m, os) else None
  | Some (p, AwaitStderr) =>
      if ctxStderr_done r then Some (set_reaper (Some (p, AtWait)) r, m, os) else None
  | Some (p, AtWait) =>
      Some (set_reaper (Some (p, AtStore)) r, m, do_effect (EWait p) os)
  | Some (p, AtStore) =>
      Some (set_reaper (Some (p, AtRemoveAll)) r, set_ps None m, os)
  | Some (p, AtRemoveAll) =>
      Some (set_reaper (Some (p, Reaped)) r, m,
            if run_keep r then os else os_RemoveAll (run_dir r) os)
  | Some (p, Reaped) => None
  | None => None
  end.

(** The reaping goroutine run on from where it stands, for at most [n]
    statements and as far as nothing blocks it. *)
Fixpoint reaper_runs (n : nat) (r : run) (m : miko) (os : os_state)
    : run * miko * os_state :=
  match n with
  | 0 => (r, m, os)
  | S n' =>
      match step_reaper r m os with
      | Some (r', m', os') => reaper_runs n' r' m' os'
      | None => (r, m, os)
      end
  end.

(** One move; [None] when the move cannot be made in [s]. *)
Definition step (l : label) (s : system) : option system :=
  match l with
  | LRun kill_res env =>
      let '(m, os, g) := Run_command kill_res env (sys_m s) (sys_os s) in
      Some {| sys_m := m; sys_os := os;
              runs := runs s ++ match g with Some l => [new_run l] | None => [] end |}
  | LCancel kill_res =>
      let '(m, os) := Cancel_command kill_res (sys_m s) (sys_os s) in
      Some {| sys_m := m; sys_os := os; runs := runs s |}
  | LInput sr d c i l dc =>
      Some {| sys_m := set_inputs sr d c i l dc (sys_m s); sys_os := sys_os s; runs := runs s |}
  | LDecode i res =>
      r ← runs s !! i;
      '(r', os) ← step_stdout r res (sys_os s);
      Some {| sys_m := sys_m s; sys_os := os; runs := <[i := r']> (runs s) |}
  | LScan i res =>
      r ← runs s !! i;
      '(r', os) ← step_stderr r res (sys_os s);
      Some {| sys_m := sys_m s; sys_os := os; runs := <[i := r']> (runs s) |}
  | LTick None => Some s
  | LTick (Some (i, from)) =>
      r ← runs s !! i;
      '(t, r') ← step_receive r from;
      Some {| sys_m := ticker_receive t (sys_m s); sys_os := sys_os s;
              runs := <[i := r']> (runs s) |}
  | LReaper i =>
      r ← runs s !! i;
      '(r', m, os) ← step_reaper r (sys_m s) (sys_os s);
      Some {| sys_m := m; sys_os := os; runs := <[i := r']> (runs s) |}
  end.

(** A sequence of moves, first to last. *)
Fixpoint exec (tr : list label) (s : system) : option system :=
  match tr with
  | [] => Some s
  | l :: tr' => s' ← step l s; exec tr' s'
  end.

(** ** A reader run to its end *)

(** What a reader has done once the answers [rs] have come in and every
    send has been received: the texts sent, what it logged, whether it has
    returned (and so fired its [Done]), and how many answers it took. *)
Record reader_run : Type := {
  sent : list text;
  logged : list string;
  returned : bool;
  reads : nat
}.

Fixpoint reader_loop {R : Type} (body : R → turn) (rs : list R) : reader_run :=
  match rs with
  | [] => {| sent := []; logged := []; returned := false; reads := 0 |}
  | r :: rs' =>
      match body r with
      | Send t =>
          let o := reader_loop body rs' in
          {| sent := t :: sent o; logged := logged o;
             returned := returned o; reads := S (reads o) |}
      | Return None =>
          {| sent := []; logged := []; returned := true; reads := 1 |}
      | Return (Some err) =>
          {| sent := []; logged := [Error err]; returned := true; reads := 1 |}
      end
  end.

Definition stdout_reader (rs : list (value + error)) : reader_run :=
  reader_loop stdout_turn rs.

Definition stderr_reader (rs : list scan) : reader_run :=
  reader_loop stderr_turn rs.

End Goroutines.

(** ** A fragment of [encoding/json]

    The decoder and the encoder of Go's standard library on a fragment of
    JSON, to run the record reader on concrete streams: objects, arrays,
    strings of printable ASCII without backslash, integers of at most
    fifteen digits (no fraction, no exponent, no negative zero), [true],
    [false] and [null]. Anything else is refused as a syntax error. *)
Module JSON.

Local Open Scope nat_scope.

(** What [Decode] stores in a variable of type [any]. An object is a Go
    map: its keys are unique, and kept here in increasing order, the order
    in which the encoder writes them. *)
Inductive any : Type :=
| Null
| Bool (b : bool)
| Number (n : Z)
| Str (s : string)
| Array (elems : list any)
| Object (members : list (string * any)).

Inductive parsed (A : Type) : Type :=
| Ok (a : A) (rest : list ascii)
| Truncated
| Invalid.
Arguments Ok {A} a rest.
Arguments Truncated {A}.
Arguments Invalid {A}.

Definition is_space (c : ascii) : bool :=
  let n := nat_of_ascii c in
  (n =? 32) || (n =? 9) || (n =? 10) || (n =? 13).

Fixpoint skip_space (bs : list ascii) : list ascii :=
  match bs with
  | c :: bs' => if is_space c then skip_space bs' else bs
  | [] => []
  end.

Definition digit (c : ascii) : option Z :=
  let n := nat_of_ascii c in
  if (48 <=? n) && (n <=? 57) then Some (Z.of_nat (n - 48)) else None.

(** The digits at the head of [bs]: how many, their value after [acc],
    and what follows. *)
Fixpoint digits (bs : list ascii) (count : nat) (acc : Z) : nat * Z * list ascii :=
  match bs with
  | c :: bs' =>
      match digit c with
      | Some d => digits bs' (S count) (10 * acc + d)%Z
      | None => (count, acc, bs)
      end
  | [] => (count, acc, bs)
  end.

Definition ends_number (rest : list ascii) : bool :=
  match rest with
  | c :: _ =>
      let n := nat_of_ascii c in
      negb ((n =? 46) || (n =? 101) || (n =? 69))
  | [] => true
  end.

Definition leading_zero (bs : list ascii) : bool :=
  match bs with
  | c :: _ => nat_of_ascii c =? 48
  | [] => false
  end.

Definition parse_number (negative : bool) (bs : list ascii) : parsed any :=
  let '(count, n, rest) := digits bs 0 0 in
  match count with
  | 0 => match bs with [] => Truncated | _ => Invalid end
  | _ =>
      if (15 <? count) || negb (ends_number rest)
         || (leading_zero bs && (1 <? count))
         || (negative && (n =? 0)%Z)
      then Invalid
      else Ok (Number (if negative then (- n)%Z else n)) rest
  end.

(** The characters of a string up to its closing quote. *)
Fixpoint parse_chars (bs : list ascii) (acc : string) : parsed string :=
  match bs with
  | [] => Truncated
  | c :: bs' =>
      let n := nat_of_ascii c in
      if n =? 34 then Ok acc bs'
      else if (n <? 32) || (126 <? n) || (n =? 92) then Invalid
      else parse_chars bs' (acc +:+ String c EmptyString)
  end.

Fixpoint expect (word : list ascii) (bs : list ascii) (v : any) : parsed any :=
  match word, bs with
  | [], _ => Ok v bs
  | _ :: _, [] => Truncated
  | w :: word', c :: bs' => if Ascii.eqb w c then expect word' bs' v else Invalid
  end.

(** A Go map assignment [m[k] = v] on the sorted members. *)
Fixpoint assign (k : string) (v : any) (ms : list (string * any)) : list (string * any) :=
  match ms with
  | [] => [(k, v)]
  | (k', v') :: ms' =>
      match String.compare k k' with
      | Lt => (k, v) :: ms
      | Eq => (k, v) :: ms'
      | Gt => (k', v') :: assign k v ms'
      end
  end.

(** The elements of an array after its first one. *)
Fixpoint parse_elems (fuel : nat) (value : list ascii → parsed any)
    (acc : list any) (bs : list ascii) : parsed any :=
  match fuel with
  | 0 => Invalid
  | S fuel' =>
      match skip_space bs with
      | [] => Truncated
      | c :: bs' =>
          if nat_of_ascii c =? 93 then Ok (Array acc) bs'
          else if nat_of_ascii c =? 44 then
            match value bs' with
            | Ok v rest => parse_elems fuel' value (acc ++ [v]) rest
            | Truncated => Truncated
            | Invalid => Invalid
            end
          else Invalid
      end
  end.

(** One member of an object: a key, a colon, a value. *)
Definition parse_member (value : list ascii → parsed any) (bs : list ascii)
    : parsed (string * any) :=
  match skip_space bs with
  | [] => Truncated
  | c :: bs' =>
      if nat_of_ascii c =? 34 then
        match parse_chars bs' "" with
        | Ok k rest =>
            match skip_space rest with
            | [] => Truncated
            | c' :: rest' =>
                if nat_of_ascii c' =? 58 then
                  match value rest' with
                  | Ok v rest'' => Ok (k, v) rest''
                  | Truncated => Truncated
                  | Invalid => Invalid
                  end
                else Invalid
            end
        | Truncated => Truncated
        | Invalid => Invalid
        end
      else Invalid
  end.

(** The members of an object after its first one. *)
Fixpoint parse_members (fuel : nat) (value : list ascii → parsed any)
    (acc : list (string * any)) (bs : list ascii) : parsed any :=
  match fuel with
  | 0 => Invalid
  | S fuel' =>
      match skip_space bs with
      | [] => Truncated
      | c :: bs' =>
          if nat_of_ascii c =? 125 then Ok (Object acc) bs'
          else if nat_of_ascii c =? 44 then
            match parse_member value bs' with
            | Ok (k, v) rest => parse_members fuel' value (assign k v acc) rest
            | Truncated => Truncated
            | Invalid => Invalid
            end
          else Invalid
      end
  end.

(** One JSON value at the head of [bs]. [fuel] bounds the nesting and the
    number of elements; the length of [bs] is enough. *)
Fixpoint parse_value (fuel : nat) (bs : list ascii) : parsed any :=
  match fuel with
  | 0 => Invalid
  | S fuel' =>
      match skip_space bs with
      | [] => Truncated
      | c :: bs' =>
          let n := nat_of_ascii c in
          if n =? 123 then
            match skip_space bs' with
            | [] => Truncated
            | c' :: bs'' =>
                if nat_of_ascii c' =? 125 then Ok (Object []) bs''
                else
                  match parse_member (parse_value fuel') bs' with
                  | Ok (k, v) rest =>
                      parse_members fuel' (parse_value fuel') [(k, v)] rest
                  | Truncated => Truncated
                  | Invalid => Invalid
                  end
            end
          else if n =? 91 then
            match skip_space bs' with
            | [] => Truncated
            | c' :: bs'' =>
                if nat_of_ascii c' =? 93 then Ok (Array []) bs''
                else
                  match parse_value fuel' bs' with
                  | Ok v rest => parse_elems fuel' (parse_value fuel') [v] rest
                  | Truncated => Truncated
                  | Invalid => Invalid
                  end
            end
          else if n =? 34 then
            match parse_chars bs' "" with
            | Ok s rest => Ok (Str s) rest
            | Truncated => Truncated
            | Invalid => Invalid
            end
          else if n =? 116 then expect (list_ascii_of_string "rue") bs' (Bool true)
          else if n =? 102 then expect (list_ascii_of_string "alse") bs' (Bool false)
          else if n =? 110 then expect (list_ascii_of_string "ull") bs' Null
          else if n =? 45 then parse_number true bs'
          else parse_number false (c :: bs')
      end
  end.

(** One call of [dec.Decode(&v)] on the unread bytes [bs] of a stream
    whose reads end with [read_end]: the value and the bytes left, or the
    error. At the end of the data the error is the one of the read. *)
Definition Decode (bs : list ascii) (read_end : error) : (any * list ascii) + error :=
  match skip_space bs with
  | [] => inr read_end
  | _ =>
      match parse_value (length bs) bs with
      | Ok v rest => inl (v, rest)
      | Truncated => inr (if is_EOF read_end then Opaque "unexpected EOF" else read_end)
      | Invalid => inr (Opaque "invalid character in JSON stream")
      end
  end.

(** The answers the record reader gets from [dec.Decode], call after
    call, on the stream [bs]. *)
Fixpoint answers (fuel : nat) (bs : list ascii) (read_end : error) : list (any + error) :=
  match fuel with
  | 0 => []
  | S fuel' =>
      match Decode bs read_end with
      | inl (v, rest) => inl v :: answers fuel' rest read_end
      | inr e => [inr e]
      end
  end.

Definition Decoder (stream : string) (read_end : error) : list (any + error) :=
  let bs := list_ascii_of_string stream in
  answers (S (length bs)) bs read_end.

Definition tab : string := String (ascii_of_nat 9) EmptyString.
Definition quote : string := String (ascii_of_nat 34) EmptyString.

Fixpoint indent (depth : nat) : string :=
  match depth with
  | 0 => ""
  | S d => tab +:+ indent d
  end.

(** The encoder escapes three characters of the fragment's strings. *)
Fixpoint escape (s : string) : string :=
  match s with
  | EmptyString => ""
  | String c s' =>
      let n := nat_of_ascii c in
      (if n =? 60 then "\u003c"
       else if n =? 62 then "\u003e"
       else if n =? 38 then "\u0026"
       else String c EmptyString) +:+ escape s'
  end.

Definition encode_string (s : string) : string := quote +:+ escape s +:+ quote.

(** [json.MarshalIndent(v, "", "\t")] at nesting [depth]. *)
Fixpoint encode (depth : nat) (v : any) : string :=
  match v with
  | Null => "null"
  | Bool true => "true"
  | Bool false => "false"
  | Number n => pretty n
  | Str s => encode_string s
  | Array [] => "[]"
  | Array (x :: xs) =>
      "[" +:+ newline +:+ indent (S depth) +:+ encode (S depth) x
      +:+ (fix rest (l : list any) : string :=
             match l with
             | [] => ""
             | y :: l' =>
                 "," +:+ newline +:+ indent (S depth) +:+ encode (S depth) y +:+ rest l'
             end) xs
      +:+ newline +:+ indent depth +:+ "]"
  | Object [] => "{}"
  | Object ((k, x) :: ms) =>
      "{" +:+ newline +:+ indent (S depth) +:+ encode_string k +:+ ": " +:+ encode (S depth) x
      +:+ (fix rest (l : list (string * any)) : string :=
             match l with
             | [] => ""
             | (k', y) :: l' =>
                 "," +:+ newline +:+ indent (S depth) +:+ encode_string k' +:+ ": "
                 +:+ encode (S depth) y +:+ rest l'
             end) ms
      +:+ newline +:+ indent depth +:+ "}"
  end.

(** On a decoded value the encoder has no error to report. *)
Definition MarshalIndent (v : any) : string + error := inl (encode 0 v).

End JSON.

(** ** Observations *)

(** The files on disk inside the workspace directory [dir]. *)
Definition workspace_files (dir : string) (os : os_state) : gmap string string :=
  filter (λ kv, inside dir kv.1 = true) (fs os).

(** The payloads a run has to write, in the words of the design: the data
    and the config when they are not empty, and the program text. *)
Definition nonempty_payloads (m : miko) (dir : string) : list (string * string) :=
  (if decide (data m = "") then [] else [(filepath_Join dir "data.json", data m)])
  ++ (if decide (cfg m = "") then [] else [(filepath_Join dir "cfg.yml", cfg m)])
  ++ [(filepath_Join dir "src.cel", src m)].

Definition write_effect (f : string * string) : effect := EWriteFile f.1 f.2.

(** The engine's argument list, in the words of the design: [-data] and
    [-cfg] with their paths for the payloads that are not empty, one flag
    for each option that is on, and the path of the program text last. *)
Definition engine_args (m : miko) (dir : string) : list string :=
  (if decide (data m = "") then [] else ["-data"; filepath_Join dir "data.json"])
  ++ (if decide (cfg m = "") then [] else ["-cfg"; filepath_Join dir "cfg.yml"])
  ++ (if insecure m then ["-insecure"] else [])
  ++ (if logRequests m then ["-log_requests"] else [])
  ++ (if dumpCrash m then ["-dump"; "error"] else [])
  ++ [filepath_Join dir "src.cel"].

(** The paths of the [os.WriteFile] calls among [es]. *)
Definition writes (es : list effect) : list string :=
  omap (λ e, match e with EWriteFile path _ => Some path | _ => None end) es.

Definition is_spawn (e : effect) : bool :=
  match e with ESpawn _ _ => true | _ => false end.

(** The handles that were spawned and that no kill has been sent to, from
    the calls made so far. *)
Fixpoint unkilled (es : list effect) (acc : list Process) : list Process :=
  match es with
  | [] => acc
  | ESpawn _ p :: es' => unkilled es' (acc ++ [p])
  | EKill p :: es' => unkilled es' (filter (λ q, q ≠ p) acc)
  | _ :: es' => unkilled es' acc
  end.


(** The handle in the active slot, as a list. *)
Definition slot (m : miko) : list Process :=
  match ps m with Some p => [p] | None => [] end.



(** What the two receives of the reaping goroutine stand for: past the
    first one the record reader has fired its [Done], past the second one
    both readers have; and a reader that has fired has returned. *)
Definition barrier_held (r : run) : Prop :=
  (ctxStdout_done r = true → stdout_pc r = Returned)
  ∧ (ctxStderr_done r = true → stderr_pc r = Returned)
  ∧ match reaper r with
    | None | Some (_, AwaitStdout) => True
    | Some (_, AwaitStderr) => ctxStdout_done r = true
    | Some (_, _) => ctxStdout_done r = true ∧ ctxStderr_done r = true
    end.


(** What the ticker inserts into the display for a text it received. *)
Definition shown (t : text) : text :=
  {| text_data := text_data t +:+ newline; text_tag := text_tag t |}.

(** The moves of the record reader of run [i] on the answers [rs], every
    send met by the ticker before the next read. *)
Fixpoint stdout_moves {value : Type} (MarshalIndent : value → string + error)
    (i : nat) (rs : list (value + error)) : list (@label value) :=
  match rs with
  | [] => []
  | r :: rs' =>
      LDecode i r
      :: match stdout_turn MarshalIndent r with
         | Send _ => LTick (Some (i, Stdout)) :: stdout_moves MarshalIndent i rs'
         | Return _ => []
         end
  end.

(** The same for the diagnostic reader. *)
Fixpoint stderr_moves {value : Type} (i : nat) (rs : list scan) : list (@label value) :=
  match rs with
  | [] => []
  | r :: rs' =>
      LScan i r
      :: match stderr_turn r with
         | Send _ => LTick (Some (i, Stderr)) :: stderr_moves i rs'
         | Return _ => []
         end
  end.

(** ** Sample inputs *)

Definition blank_os : os_state := {| fs := ∅; effects := []; logs := [] |}.

(** A program and a data payload, no config, one option on. *)
Definition sample_miko : miko :=
  {| ps := None; src := "state.n + 1"; data := "{}"; cfg := ""; display := [];
     insecure := false; logRequests := true; dumpCrash := false |}.

(** A run is active (handle 4) and the program text has been cleared. *)
Definition idle_miko : miko :=
  {| ps := Some 4; src := ""; data := "{}"; cfg := ""; display := [];
     insecure := false; logRequests := false; dumpCrash := false |}.

(** Every call succeeds; the process gets handle 7. *)
Definition sample_env : mito_env :=
  {| MkdirTemp_res := inl "/tmp/miko-1";
     WriteFile_data := WriteOk; WriteFile_cfg := WriteOk; WriteFile_src := WriteOk;
     StdoutPipe_err := None; StderrPipe_err := None;
     Start_res := inl 7 |}.

(** The data file is written, the program text is not: the disk is full. *)
Definition full_disk_env : mito_env :=
  {| MkdirTemp_res := inl "/tmp/miko-1";
     WriteFile_data := WriteOk; WriteFile_cfg := WriteOk;
     WriteFile_src := WriteErr (PathError "write" "/tmp/miko-1/src.cel" (Opaque "no space left on device")) (Some "sta");
     StdoutPipe_err := None; StderrPipe_err := None;
     Start_res := inl 7 |}.

(** The record stream of two objects, one after the other, and the
    rendering of each. *)
Definition two_records : string :=
  "{" +:+ JSON.quote +:+ "a" +:+ JSON.quote +:+ ":1}"
  +:+ "{" +:+ JSON.quote +:+ "b" +:+ JSON.quote +:+ ":2}".

Definition rendered (key value : string) : string :=
  "{" +:+ newline +:+ JSON.tab +:+ JSON.quote +:+ key +:+ JSON.quote +:+ ": " +:+ value
  +:+ newline +:+ "}".

(** What [File.Read] answers on a pipe the program has closed. *)
Definition closed_pipe : error := PathError "read" "|0" fs_ErrClosed.

(** What [Kill] answers for a process that has been reaped. *)
Definition process_done : error := Opaque "os: process already finished".

(** A second start: another directory, handle 8. *)
Definition second_env : mito_env :=
  {| MkdirTemp_res := inl "/tmp/miko-2";
     WriteFile_data := WriteOk; WriteFile_cfg := WriteOk; WriteFile_src := WriteOk;
     StdoutPipe_err := None; StderrPipe_err := None;
     Start_res := inl 8 |}.

(** The program at rest before the first [Run]. *)
Definition sample_system : system :=
  {| sys_m := sample_miko; sys_os := blank_os; runs := [] |}.

(** [Run], then [Cancel] at once; both readers find their pipe closed, and
    the reaping goroutine gets past its two receives. *)
Definition killed_at_once : list (@label JSON.any) :=
  [LRun None sample_env; LCancel None;
   LDecode 0 (inr closed_pipe); LScan 0 (Stop closed_pipe);
   LReaper 0; LReaper 0].

(** Two runs one after the other; the readers of the first one end and its
    reaping goroutine runs up to its store. *)
Definition superseded : list (@label JSON.any) :=
  [LRun None sample_env; LRun None second_env;
   LDecode 0 (inr io_EOF); LScan 0 (Stop io_EOF);
   LReaper 0; LReaper 0; LReaper 0; LReaper 0].

(** ** The other commands of the window *)

Definition set_src (s : string) (m : miko) : miko :=
  {| ps := ps m; src := s; data := data m; cfg := cfg m; display := display m;
     insecure := insecure m; logRequests := logRequests m; dumpCrash := dumpCrash m |}.

Definition set_data (s : string) (m : miko) : miko :=
  {| ps := ps m; src := src m; data := s; cfg := cfg m; display := display m;
     insecure := insecure m; logRequests := logRequests m; dumpCrash := dumpCrash m |}.

Definition set_cfg (s : string) (m : miko) : miko :=
  {| ps := ps m; src := src m; data := data m; cfg := s; display := display m;
     insecure := insecure m; logRequests := logRequests m; dumpCrash := dumpCrash m |}.

(** [m.display.Text()]: what the display holds, tags apart. *)
Definition display_Text (m : miko) : string :=
  foldr (λ t rest, text_data t +:+ rest) "" (display m).

(** The [Clear Output] command (lines 189 to 195): [m.display.Clear()]. *)
Definition Clear_command (m : miko) : miko :=
  {| ps := ps m; src := src m; data := data m; cfg := cfg m; display := [];
     insecure := insecure m; logRequests := logRequests m; dumpCrash := dumpCrash m |}.

(** [txtar.File] *)
Record File : Type := { Name : string; Data : string }.

(** The files the [Snarf] command puts into its archive (lines 201 to
    217), which it formats into the clipboard. *)
Definition Snarf_files (m : miko) : list File :=
  let files : list File := [] in
  let files := if decide (src m = "") then files
               else files ++ [{| Name := "src.cel"; Data := src m |}] in
  let files := if decide (data m = "") then files
               else files ++ [{| Name := "data.json"; Data := data m |}] in
  let files := if decide (cfg m = "") then files
               else files ++ [{| Name := "cfg.yaml"; Data := cfg m |}] in
  let out := display_Text m in
  if decide (out = "") then files
  else files ++ [{| Name := "out.json"; Data := out |}].

(** What one run of the external [celfmt] answers: its standard output,
    its standard error and the result of [cmd.Run]. *)
Record celfmt_answer : Type := {
  celfmt_stdout : string;
  celfmt_stderr : string;
  celfmt_err : option error
}.

Section Formatters.

(** [strings.TrimSpace], the external command [celfmt] on a standard
    input, and [json.Indent] with no prefix and a tab as indent. *)
Context (TrimSpace : string → string)
        (run_celfmt : string → celfmt_answer)
        (Indent : string → string + error).

(** The method [celfmt] (lines 463 to 481). *)
Definition celfmt (m : miko) : string * option error :=
  let text := src m in
  if decide (TrimSpace text = "") then ("", None)
  else
    let a := run_celfmt text in
    match celfmt_err a with
    | Some err =>
        if decide (celfmt_stderr a = "") then ("", Some err)
        else ("", Some (Opaque ("celfmt: " +:+ celfmt_stderr a)))
    | None => (TrimSpace (celfmt_stdout a), None)
    end.

(** The method [jsonfmt] (lines 483 to 494). *)
Definition jsonfmt (m : miko) : string * option error :=
  let text := data m in
  if decide (TrimSpace text = "") then ("", None)
  else
    match Indent text with
    | inr err => ("", Some err)
    | inl buf => (TrimSpace buf, None)
    end.

(** The [Format] command (lines 153 to 171). *)
Definition Format_command (m : miko) : miko :=
  match celfmt m with
  | (_, Some err) => printError (Some err) m
  | (s, None) =>
      let m := if decide (s = "") then m else set_src s m in
      match jsonfmt m with
      | (_, Some err) => printError (Some err) m
      | (d, None) => if decide (d = "") then m else set_data d m
      end
  end.

End Formatters.

(** ** The function [main] *)

(** The flags [main] looks at, after [flag.Parse]. *)
Record flags : Type := {
  flag_txtar : string;
  flag_src : string;
  flag_data : string;
  flag_cfg : string;
  flag_tw : nat
}.

(** How [main] goes on: the usage text and exit status 2, [log.Fatal] with
    an error, or the window with its inputs filled, waiting for events. *)
Inductive started : Type :=
| Usage
| Fatal (err : error)
| Window (m : miko).

(** The value [newMiko] returns: empty widgets, nothing in the slot. *)
Definition newMiko : miko :=
  {| ps := None; src := ""; data := ""; cfg := ""; display := [];
     insecure := false; logRequests := false; dumpCrash := false |}.

(** The body of the loop over the files of the archive (lines 48 to 55);
    [Insert("end", ...)] puts the text after what the widget holds. *)
Definition load_file (f : File) (m : miko) : miko :=
  if decide (Name f = "src.cel") then set_src (src m +:+ Data f) m
  else if decide (Name f = "data.json") then set_data (data m +:+ Data f) m
  else if decide (Name f = "cfg.yaml") then set_cfg (cfg m +:+ Data f) m
  else m.

Definition load_files (files : list File) (m : miko) : miko :=
  foldl (λ m f, load_file f m) m files.

Section Main.

(** [txtar.Parse] (its files) and [os.ReadFile]. *)
Context (Parse : string → list File) (ReadFile : string → string + error).

(** Lines 58 to 64 and their two likes: read the file of a flag that was
    given and put its content after what the widget holds. *)
Definition insert_file (path : string) (put : string → miko → miko) (m : miko)
    : miko + error :=
  if decide (path = "") then inl m
  else
    match ReadFile path with
    | inr err => inr err
    | inl b => inl (put b m)
    end.

(** The function [main] (lines 26 to 80). *)
Definition main (fl : flags) : started :=
  if bool_decide (flag_txtar fl ≠ "")
     && (bool_decide (flag_data fl ≠ "") || bool_decide (flag_cfg fl ≠ "")
         || bool_decide (flag_src fl ≠ ""))
     || bool_decide (flag_tw fl = 0)
  then Usage
  else
    let m := newMiko in
    match (if decide (flag_txtar fl = "") then inl m
           else match ReadFile (flag_txtar fl) with
                | inr err => inr err
                | inl b => inl (load_files (Parse b) m)
                end) with
    | inr err => Fatal err
    | inl m =>
        match insert_file (flag_src fl) (λ b m, set_src (src m +:+ b) m) m with
        | inr err => Fatal err
        | inl m =>
            match insert_file (flag_data fl) (λ b m, set_data (data m +:+ b) m) m with
            | inr err => Fatal err
            | inl m =>
                match insert_file (flag_cfg fl) (λ b m, set_cfg (cfg m +:+ b) m) m with
                | inr err => Fatal err
                | inl m => Window m
                end
            end
        end
    end.

End Main.

(** ** More sample inputs *)

(** Leading and trailing blanks and line feeds removed, for texts that
    have no other white space. *)
Fixpoint trim_left (s : string) : string :=
  match s with
  | String c s' =>
      if (Ascii.eqb c " " || Ascii.eqb c (Ascii.ascii_of_nat 10))%bool then trim_left s' else s
  | EmptyString => s
  end.

Definition trim_blanks (s : string) : string :=
  String.rev (trim_left (String.rev (trim_left s))).

(** A formatter whose output is its input with a line feed, and one that
    fails with a message on its standard error. *)
Definition echo_celfmt (text : string) : celfmt_answer :=
  {| celfmt_stdout := text +:+ newline; celfmt_stderr := ""; celfmt_err := None |}.

Definition failing_celfmt (text : string) : celfmt_answer :=
  {| celfmt_stdout := ""; celfmt_stderr := "ERROR: 1:1: syntax error";
     celfmt_err := Some (Opaque "exit status 1") |}.

(** An indenter that refuses everything, and one that changes nothing. *)
Definition refusing_Indent (text : string) : string + error :=
  inr (Opaque "invalid character 'x' looking for beginning of value").

Definition same_Indent (text : string) : string + error := inl text.

(** A window with a program, data that is no JSON, and two texts shown. *)
Definition edited_miko : miko :=
  {| ps := Some 7; src := " state.n + 1 "; data := "x"; cfg := "";
     display := [ {| text_data := "1" +:+ newline; text_tag := "output" |};
                  {| text_data := "warning" +:+ newline; text_tag := "error" |} ];
     insecure := false; logRequests := false; dumpCrash := false |}.

(** A disk with one archive file on it, and the parser that gives the
    files [Snarf] packed for [edited_miko]. *)
Definition sample_ReadFile (path : string) : string + error :=
  if decide (path = "run.txtar") then inl "archive"
  else if decide (path = "prog.cel") then inl "1 + 1"
  else inr (PathError "open" path (Opaque "no such file or directory")).

Definition sample_Parse (b : string) : list File := Snarf_files edited_miko.

(** The data of the files called [name] among [files], one after the
    other. *)
Fixpoint named_data (name : string) (files : list File) : string :=
  match files with
  | [] => ""
  | f :: files' =>
      if decide (Name f = name) then Data f +:+ named_data name files'
      else named_data name files'
  end.

(** What [printError] adds to the display. *)
Definition shown_error (err : option error) : list text :=
  match err with
  | Some e => [{| text_data := Error e +:+ newline; text_tag := "error" |}]
  | None => []
  end.

(** The moves of [superseded] up to the store of the first reaping
    goroutine, and the state they lead to. *)
Definition superseded_before_store : list (@label JSON.any) :=
  [LRun None sample_env; LRun None second_env;
   LDecode 0 (inr io_EOF); LScan 0 (Stop io_EOF);
   LReaper 0; LReaper 0; LReaper 0].

Definition superseded_state : system :=
  default sample_system (exec JSON.MarshalIndent superseded_before_store sample_system).

(** The engine cannot be started: the files are written, the spawn fails. *)
Definition no_engine_env : mito_env :=
  {| MkdirTemp_res := inl "/tmp/miko-1";
     WriteFile_data := WriteOk; WriteFile_cfg := WriteOk; WriteFile_src := WriteOk;
     StdoutPipe_err := None; StderrPipe_err := None;
     Start_res := inr (Opaque "exec: mito: executable file not found in $PATH") |}.

(** A disk with a file of the user's on it. *)
Definition notes_os : os_state :=
  {| fs := {[ "/home/u/notes.txt" := "keep me" ]}; effects := []; logs := [] |}.

(** * Properties *)

(** ** Paths *)

Lemma prefix_app (a b : string) : String.prefix a (a +:+ b) = true.
Proof.
  induction a as [|c a IH]; simpl.
  - by destruct b.
  - destruct (ascii_dec c c); [exact IH | done].
Qed.

Lemma inside_Join (dir name : string) : inside dir (filepath_Join dir name) = true.
Proof.
  unfold inside, filepath_Join.
  induction dir as [|c dir IH]; simpl.
  - apply (prefix_app "/" name).
  - destruct (ascii_dec c c); [exact IH | done].
Qed.

Lemma Join_inj (dir a b : string) : filepath_Join dir a = filepath_Join dir b → a = b.
Proof.
  unfold filepath_Join. intros H.
  apply (inj (String.app dir)) in H. by apply (inj (String.app "/")) in H.
Qed.

(** ** The file system under writes and removal *)

Lemma lookup_RemoveAll dir os path :
  fs (os_RemoveAll dir os) !! path = if inside dir path then None else fs os !! path.
Proof.
  unfold os_RemoveAll; simpl.
  destruct (inside dir path) eqn:Hin.
  - apply map_lookup_filter_None. right. intros x _. simpl. congruence.
  - destruct (fs os !! path) as [x|] eqn:Hl.
    + apply map_lookup_filter_Some. done.
    + apply map_lookup_filter_None. by left.
Qed.

Lemma workspace_files_RemoveAll dir os : workspace_files dir (os_RemoveAll dir os) = ∅.
Proof.
  apply map_eq. intros path. rewrite lookup_empty.
  apply map_lookup_filter_None.
  rewrite lookup_RemoveAll.
  destruct (inside dir path) eqn:Hin; [by left |].
  right. intros x _. simpl. congruence.
Qed.

Lemma workspace_files_empty dir os :
  workspace_files dir os = ∅ ↔ ∀ path, inside dir path = true → fs os !! path = None.
Proof.
  unfold workspace_files. split.
  - intros He path Hin. destruct (fs os !! path) as [x|] eqn:Hl; [|done].
    assert (filter (λ kv : string * string, inside dir kv.1 = true) (fs os) !! path = Some x) as Hf
      by (by apply map_lookup_filter_Some).
    rewrite He in Hf. by rewrite lookup_empty in Hf.
  - intros H. apply map_eq. intros path. rewrite lookup_empty.
    apply map_lookup_filter_None.
    destruct (inside dir path) eqn:Hin; [left; by apply H |].
    right. intros x _. simpl. congruence.
Qed.

(** Removing a directory that held nothing before, after anything was
    written inside it only, gives back the files there were. *)
Lemma RemoveAll_restores dir os0 os1 :
  workspace_files dir os0 = ∅ →
  (∀ path, inside dir path = false → fs os1 !! path = fs os0 !! path) →
  fs (os_RemoveAll dir os1) = fs os0.
Proof.
  intros Hfresh Hout. apply map_eq. intros path.
  rewrite lookup_RemoveAll.
  destruct (inside dir path) eqn:Hin.
  - symmetry. by apply (proj1 (workspace_files_empty dir os0)).
  - by apply Hout.
Qed.

(** ** Writing the inputs and building the arguments *)

Ltac run_mito_args :=
  unfold mito_args, mbind, M_bind, mret, M_ret, WriteFile_or_return, os_WriteFile,
    nonempty_payloads, engine_args, write_effect, do_effect.

Lemma mito_args_inl m dir env os args os' :
  mito_args m dir env os = (inl args, os') →
  args = engine_args m dir
  ∧ effects os' = effects os ++ map write_effect (nonempty_payloads m dir)
  ∧ fs os' = foldl (λ f kv, <[kv.1 := kv.2]> f) (fs os) (nonempty_payloads m dir)
  ∧ logs os' = logs os.
Proof.
  run_mito_args.
  destruct (decide (data m = "")), (decide (cfg m = ""));
    destruct (WriteFile_data env) as [|? [?|]], (WriteFile_cfg env) as [|? [?|]],
      (WriteFile_src env) as [|? [?|]];
    simpl; intros [= <- <-]; simpl; rewrite <- ?app_assoc; simpl;
    destruct (insecure m), (logRequests m), (dumpCrash m); done.
Qed.

Lemma mito_args_inr m dir env os e os' :
  mito_args m dir env os = (inr e, os') →
  (∀ path, inside dir path = false → fs os' !! path = fs os !! path)
  ∧ (∃ ws, effects os' = effects os ++ map write_effect ws)
  ∧ logs os' = logs os.
Proof.
  run_mito_args.
  destruct (decide (data m = "")), (decide (cfg m = ""));
    destruct (WriteFile_data env) as [|? [?|]], (WriteFile_cfg env) as [|? [?|]],
      (WriteFile_src env) as [|? [?|]];
    simpl; intros [= <- <-]; simpl;
    (split; [intros path Hout;
             rewrite ?lookup_insert_ne; [done | intros <-; by rewrite inside_Join in Hout ..]
            | split; [| done]]).
  all: rewrite <- ?app_assoc; simpl.
  all: first
    [ by exists [(filepath_Join dir "data.json", data m)]
    | by exists [(filepath_Join dir "cfg.yml", cfg m)]
    | by exists [(filepath_Join dir "src.cel", src m)]
    | by exists [(filepath_Join dir "data.json", data m); (filepath_Join dir "cfg.yml", cfg m)]
    | by exists [(filepath_Join dir "data.json", data m); (filepath_Join dir "src.cel", src m)]
    | by exists [(filepath_Join dir "cfg.yml", cfg m); (filepath_Join dir "src.cel", src m)]
    | by exists [(filepath_Join dir "data.json", data m); (filepath_Join dir "cfg.yml", cfg m);
                 (filepath_Join dir "src.cel", src m)] ].
Qed.

Lemma mito_args_data_fails m dir env os e left :
  data m ≠ "" → WriteFile_data env = WriteErr e left →
  (mito_args m dir env os).1 = inr e.
Proof.
  intros Hd Hw. run_mito_args. rewrite Hw.
  destruct (decide (data m = "")); [done |]. by destruct left.
Qed.

Lemma mito_args_cfg_fails m dir env os e left :
  data m = "" ∨ WriteFile_data env = WriteOk →
  cfg m ≠ "" → WriteFile_cfg env = WriteErr e left →
  (mito_args m dir env os).1 = inr e.
Proof.
  intros Hd Hc Hw. run_mito_args. rewrite Hw.
  destruct (decide (cfg m = "")); [done |].
  destruct (decide (data m = "")) as [|Hne]; [by destruct left |].
  destruct Hd as [|Hd]; [done |]. rewrite Hd. by destruct left.
Qed.

Lemma mito_args_src_fails m dir env os e left :
  data m = "" ∨ WriteFile_data env = WriteOk →
  cfg m = "" ∨ WriteFile_cfg env = WriteOk →
  WriteFile_src env = WriteErr e left →
  (mito_args m dir env os).1 = inr e.
Proof.
  intros Hd Hc Hw. run_mito_args. rewrite Hw.
  destruct (decide (data m = "")) as [|Hdne], (decide (cfg m = "")) as [|Hcne];
    try (destruct Hd as [|Hd]; [done |]; rewrite Hd);
    try (destruct Hc as [|Hc]; [done |]; rewrite Hc);
    by destruct left.
Qed.

(** What a call of [mito] that returns a handle has done. *)
Lemma mito_success m keep env os r os' p :
  mito m keep env os = (r, os') →
  ret_ps r = Some p →
  src m ≠ "" ∧
  ∃ dir,
    MkdirTemp_res env = inl dir
    ∧ effects os' = effects os ++ EMkdirTemp dir
        :: map write_effect (nonempty_payloads m dir) ++ [ESpawn (engine_args m dir) p]
    ∧ fs os' = foldl (λ f kv, <[kv.1 := kv.2]> f) (fs os) (nonempty_payloads m dir)
    ∧ logs os' = logs os
    ∧ r = returns (Some p) None (Some {| l_dir := dir; l_keep := keep; l_reaper := Some p |}).
Proof.
  unfold mito. intros Hm Hp.
  destruct (decide (src m = "")) as [|Hsrc].
  { injection Hm as <- <-. done. }
  split; [done |].
  destruct (MkdirTemp_res env) as [dir|e] eqn:Hdir.
  2: { injection Hm as <- <-. done. }
  destruct (mito_args m dir env (os_MkdirTemp dir os)) as [[args|e] os1] eqn:Hargs.
  2: { injection Hm as <- <-. done. }
  destruct (StdoutPipe_err env).
  { injection Hm as <- <-. done. }
  destruct (StderrPipe_err env).
  { injection Hm as <- <-. done. }
  destruct (Start_res env) as [q|e].
  2: { injection Hm as <- <-. done. }
  injection Hm as <- <-. simpl in Hp. injection Hp as ->.
  exists dir.
  destruct (mito_args_inl _ _ _ _ _ _ Hargs) as (-> & He & Hf & Hl).
  simpl in *. rewrite He, <- !app_assoc. done.
Qed.

(** ** Starting a run *)

Lemma mito_empty_source_eq m keep env os :
  src m = "" → mito m keep env os = (returns None None None, os).
Proof.
  intros Hsrc. unfold mito. by destruct (decide (src m = "")).
Qed.

(** C6. Starting a run with empty program text returns no handle and no
    error, starts no goroutine (so no event can come), and leaves the
    outside world as it was: no directory, no file, no process. *)
Theorem mito_empty_source m keep env os :
  src m = "" →
  mito m keep env os = (returns None None None, os).
Proof. apply mito_empty_source_eq. Qed.

Lemma mito_empty_source_witness :
  mito idle_miko false sample_env blank_os = (returns None None None, blank_os).
Proof.
  apply mito_empty_source. reflexivity.
Defined.

(** C7. For a start with non-empty program text in workspace [dir], the
    argument list that [mito_args] builds is [engine_args]: [-data] with its
    path only when the data payload is not empty, then [-cfg] with its path
    only when the config payload is not empty, then one flag for each option
    that is on, and last the path of the program text. The files written
    are those of the payloads that are not empty, and a start that returns a
    handle has spawned the engine with these arguments. *)
Theorem engine_argument_list m keep env os dir :
  src m ≠ "" →
  MkdirTemp_res env = inl dir →
  (∀ args os1, mito_args m dir env (os_MkdirTemp dir os) = (inl args, os1) →
     args = engine_args m dir
     ∧ effects os1 = effects os ++ EMkdirTemp dir :: map write_effect (nonempty_payloads m dir))
  ∧ (∀ p, ret_ps (mito m keep env os).1 = Some p →
       effects (mito m keep env os).2 = effects os ++ EMkdirTemp dir
         :: map write_effect (nonempty_payloads m dir) ++ [ESpawn (engine_args m dir) p])
  ∧ last (engine_args m dir) = Some (filepath_Join dir "src.cel")
  ∧ engine_args m dir =
      (if decide (data m = "") then [] else ["-data"; filepath_Join dir "data.json"])
      ++ (if decide (cfg m = "") then [] else ["-cfg"; filepath_Join dir "cfg.yml"])
      ++ (if insecure m then ["-insecure"] else [])
      ++ (if logRequests m then ["-log_requests"] else [])
      ++ (if dumpCrash m then ["-dump"; "error"] else [])
      ++ [filepath_Join dir "src.cel"]
  ∧ nonempty_payloads m dir =
      (if decide (data m = "") then [] else [(filepath_Join dir "data.json", data m)])
      ++ (if decide (cfg m = "") then [] else [(filepath_Join dir "cfg.yml", cfg m)])
      ++ [(filepath_Join dir "src.cel", src m)].
Proof.
  intros Hsrc Hdir. split; [| split; [| split; [| done]]].
  - intros args os1 Hargs.
    destruct (mito_args_inl _ _ _ _ _ _ Hargs) as (-> & He & _).
    split; [done |]. rewrite He. simpl. by rewrite <- app_assoc.
  - intros p Hp.
    destruct (mito m keep env os) as [r os'] eqn:Hm.
    destruct (mito_success _ _ _ _ _ _ _ Hm Hp) as (_ & dir' & Hdir' & He & _).
    rewrite Hdir in Hdir'. injection Hdir' as <-. exact He.
  - unfold engine_args. rewrite !app_assoc. apply last_snoc.
Qed.

Lemma engine_argument_list_witness :
  effects (mito sample_miko false sample_env blank_os).2 =
    [EMkdirTemp "/tmp/miko-1";
     EWriteFile "/tmp/miko-1/data.json" "{}";
     EWriteFile "/tmp/miko-1/src.cel" "state.n + 1";
     ESpawn ["-data"; "/tmp/miko-1/data.json"; "-log_requests"; "/tmp/miko-1/src.cel"] 7].
Proof.
  apply (proj1 (proj2 (engine_argument_list sample_miko false sample_env blank_os
                         "/tmp/miko-1" ltac:(discriminate) eq_refl)) 7).
  reflexivity.
Defined.

(** ** The workspace *)

Lemma writes_app es1 es2 : writes (es1 ++ es2) = writes es1 ++ writes es2.
Proof. unfold writes. apply omap_app. Qed.

Lemma writes_write_effects fs : writes (map write_effect fs) = fs.*1.
Proof. induction fs as [|[path c] fs IH]; simpl; [done | by f_equal]. Qed.

Lemma payload_count m dir :
  length (nonempty_payloads m dir)
  = 1 + (if decide (data m = "") then 0 else 1) + (if decide (cfg m = "") then 0 else 1).
Proof.
  unfold nonempty_payloads. by destruct (decide (data m = "")), (decide (cfg m = "")).
Qed.

Lemma Join_ne dir a b : a ≠ b → filepath_Join dir a ≠ filepath_Join dir b.
Proof. intros Hne Heq. by apply Hne, (Join_inj dir). Qed.

(** The files of a new workspace after the payloads were written. *)
Lemma workspace_after_writes m dir os f :
  workspace_files dir os = ∅ →
  f = foldl (λ f kv, <[kv.1 := kv.2]> f) (fs os) (nonempty_payloads m dir) →
  size (filter (λ kv : string * string, inside dir kv.1 = true) f)
  = length (nonempty_payloads m dir).
Proof.
  unfold workspace_files. intros Hfresh ->.
  assert (filepath_Join dir "data.json" ≠ filepath_Join dir "cfg.yml") by (by apply Join_ne).
  assert (filepath_Join dir "data.json" ≠ filepath_Join dir "src.cel") by (by apply Join_ne).
  assert (filepath_Join dir "cfg.yml" ≠ filepath_Join dir "src.cel") by (by apply Join_ne).
  unfold nonempty_payloads.
  destruct (decide (data m = "")), (decide (cfg m = "")); simpl;
    rewrite !map_filter_insert_True by apply inside_Join;
    rewrite Hfresh;
    rewrite !map_size_insert_None, ?map_size_empty;
    rewrite ?lookup_insert_ne, ?lookup_empty; done.
Qed.

(** Past its two receives the reaping goroutine does what [finalize]
    says, in three statements. *)
Lemma reaper_runs_finalize r p m os :
  reaper r = Some (p, AtWait) →
  reaper_runs 3 r m os
  = (set_reaper (Some (p, Reaped)) r,
     (finalize (run_keep r) (run_dir r) p m os).1,
     (finalize (run_keep r) (run_dir r) p m os).2).
Proof.
  intros Hr. unfold reaper_runs, step_reaper, finalize. rewrite Hr. simpl.
  by destruct (run_keep r).
Qed.

(** C3. A start that returns a handle has written exactly N files into its
    workspace directory, N being the number of payloads that are not empty
    (the program text always, the data and the config when not empty), and
    the directory holds exactly these N files. It leaves a reaping goroutine
    for this directory and this [keep]. Teardown, whenever it comes, leaves
    no file in the directory when [keep] is false and leaves every file on
    disk when [keep] is true. Teardown is [finalize], the three statements
    the reaping goroutine runs after its two receives. *)
Theorem workspace_written_then_removed m keep env os dir p :
  ret_ps (mito m keep env os).1 = Some p →
  MkdirTemp_res env = inl dir →
  workspace_files dir os = ∅ →
  let N := 1 + (if decide (data m = "") then 0 else 1)
             + (if decide (cfg m = "") then 0 else 1) in
  let os' := (mito m keep env os).2 in
  length (writes (effects os')) = length (writes (effects os)) + N
  ∧ size (workspace_files dir os') = N
  ∧ goroutines (mito m keep env os).1
      = Some {| l_dir := dir; l_keep := keep; l_reaper := Some p |}
  ∧ (∀ m1, workspace_files dir (finalize false dir p m1 os').2 = ∅)
  ∧ (∀ m1, fs (finalize true dir p m1 os').2 = fs os')
  ∧ (∀ m1 os1, workspace_files dir (finalize false dir p m1 os1).2 = ∅)
  ∧ (∀ m1 os1, fs (finalize true dir p m1 os1).2 = fs os1)
  ∧ (∀ r m1 os1,
       reaper r = Some (p, AtWait) →
       reaper_runs 3 r m1 os1
       = (set_reaper (Some (p, Reaped)) r,
          (finalize (run_keep r) (run_dir r) p m1 os1).1,
          (finalize (run_keep r) (run_dir r) p m1 os1).2)).
Proof.
  intros Hp Hdir Hfresh N os'. subst N os'.
  rewrite <- (payload_count m dir).
  destruct (mito m keep env os) as [r os'] eqn:Hm. simpl in *.
  destruct (mito_success _ _ _ _ _ _ _ Hm Hp) as (_ & dir' & Hdir' & He & Hf & _ & ->).
  rewrite Hdir in Hdir'. injection Hdir' as <-.
  repeat split.
  - rewrite He, writes_app. simpl. rewrite writes_app, writes_write_effects. simpl.
    rewrite !length_app, length_fmap. simpl. lia.
  - unfold workspace_files. by apply (workspace_after_writes m dir os).
  - intros m1. unfold finalize. simpl. apply workspace_files_RemoveAll.
  - intros m1 os1. unfold finalize. simpl. apply workspace_files_RemoveAll.
  - intros r m1 os1. apply reaper_runs_finalize.
Qed.

Lemma workspace_written_then_removed_witness :
  size (workspace_files "/tmp/miko-1" (mito sample_miko true sample_env blank_os).2) = 2
  ∧ workspace_files "/tmp/miko-1"
      (finalize false "/tmp/miko-1" 7 sample_miko
         (mito sample_miko true sample_env blank_os).2).2 = ∅.
Proof.
  pose proof (workspace_written_then_removed sample_miko true sample_env blank_os
                "/tmp/miko-1" 7 eq_refl eq_refl eq_refl) as H.
  split; [exact (proj1 (proj2 H)) | exact (proj1 (proj2 (proj2 (proj2 H))) sample_miko)].
Defined.

(** C9. When the workspace directory cannot be created, or the data, the
    config or the program text cannot be written, [mito] returns that error
    and no handle, starts no goroutine and spawns nothing. If the directory
    was created it has been removed by then (the last call made is its
    [RemoveAll]) and holds no file; the files on disk are those there were
    before the call. *)
Theorem failed_start_leaves_nothing m keep env os e :
  src m ≠ "" →
  (MkdirTemp_res env = inr e
   ∨ ∃ dir, MkdirTemp_res env = inl dir ∧ workspace_files dir os = ∅
       ∧ ((data m ≠ "" ∧ ∃ left, WriteFile_data env = WriteErr e left)
          ∨ ((data m = "" ∨ WriteFile_data env = WriteOk)
             ∧ cfg m ≠ "" ∧ ∃ left, WriteFile_cfg env = WriteErr e left)
          ∨ ((data m = "" ∨ WriteFile_data env = WriteOk)
             ∧ (cfg m = "" ∨ WriteFile_cfg env = WriteOk)
             ∧ ∃ left, WriteFile_src env = WriteErr e left))) →
  let r := (mito m keep env os).1 in
  let os' := (mito m keep env os).2 in
  r = returns None (Some e) None
  ∧ filter (λ x, is_spawn x = true) (effects os')
    = filter (λ x, is_spawn x = true) (effects os)
  ∧ fs os' = fs os
  ∧ (∀ dir, MkdirTemp_res env = inl dir →
       last (effects os') = Some (ERemoveAll dir) ∧ workspace_files dir os' = ∅).
Proof.
  intros Hsrc Hfail. unfold mito.
  destruct (decide (src m = "")); [done |].
  destruct Hfail as [Hmk | (dir & Hmk & Hfresh & Hw)]; rewrite Hmk; simpl.
  { repeat split; intros; done. }
  assert ((mito_args m dir env (os_MkdirTemp dir os)).1 = inr e) as Herr.
  { destruct Hw as [(Hd & left & Hw) | [(Hd & Hc & left & Hw) | (Hd & Hc & left & Hw)]].
    - by eapply mito_args_data_fails.
    - by eapply mito_args_cfg_fails.
    - by eapply mito_args_src_fails. }
  destruct (mito_args m dir env (os_MkdirTemp dir os)) as [res os1] eqn:Hargs.
  simpl in Herr. subst res. simpl.
  destruct (mito_args_inr _ _ _ _ _ _ Hargs) as (Hout & (ws & He) & _).
  repeat split.
  - rewrite He. simpl. rewrite !filter_app. simpl.
    assert (filter (λ x, is_spawn x = true) (map write_effect ws) = []) as ->.
    { clear. induction ws as [|w ws IH]; [done |]. simpl. by rewrite filter_cons_False. }
    by rewrite !app_nil_r.
  - by apply RemoveAll_restores.
  - injection H as <-. simpl. apply last_snoc.
  - injection H as <-. apply workspace_files_RemoveAll.
Qed.

Lemma failed_start_leaves_nothing_witness :
  (mito sample_miko false full_disk_env blank_os).1
    = returns None
        (Some (PathError "write" "/tmp/miko-1/src.cel" (Opaque "no space left on device")))
        None
  ∧ fs (mito sample_miko false full_disk_env blank_os).2 = fs blank_os.
Proof.
  pose proof (failed_start_leaves_nothing sample_miko false full_disk_env blank_os
    (PathError "write" "/tmp/miko-1/src.cel" (Opaque "no space left on device"))
    ltac:(discriminate)
    (or_intror (ex_intro _ "/tmp/miko-1" (conj eq_refl (conj eq_refl
       (or_intror (or_intror (conj (or_intror eq_refl) (conj (or_introl eq_refl)
          (ex_intro _ (Some "sta") eq_refl)))))))))) as H.
  split; [exact (proj1 H) | exact (proj1 (proj2 (proj2 H)))].
Defined.

(** ** The [Run] and [Cancel] commands *)

(** [Run] begins with the statements of [Cancel]; then it starts the run
    and stores what [mito] returned. *)
Lemma Run_command_unfold kill_res env m os :
  Run_command kill_res env m os
  = let '(m1, os1) := Cancel_command kill_res m os in
    let '(r, os2) := mito m1 false env os1 in
    (printError (ret_err r) (set_ps (ret_ps r) m1), os2, goroutines r).
Proof.
  unfold Run_command, Cancel_command. by destruct (ps m).
Qed.

Lemma ps_printError e m : ps (printError e m) = ps m.
Proof. by destruct e. Qed.


Lemma unkilled_app es1 es2 acc :
  unkilled (es1 ++ es2) acc = unkilled es2 (unkilled es1 acc).
Proof.
  revert acc. induction es1 as [|e es1 IH]; intros acc; [done |].
  destruct e; simpl; apply IH.
Qed.

Lemma unkilled_writes ws acc : unkilled (map write_effect ws) acc = acc.
Proof. induction ws as [|w ws IH]; [done | exact IH]. Qed.

(** A call of [mito] sends no kill, and spawns the handle it returns and
    nothing else. *)
Lemma mito_unkilled m keep env os acc :
  unkilled (effects (mito m keep env os).2) acc
  = unkilled (effects os) acc
    ++ match ret_ps (mito m keep env os).1 with Some p => [p] | None => [] end.
Proof.
  unfold mito.
  destruct (decide (src m = "")); simpl; [by rewrite app_nil_r |].
  destruct (MkdirTemp_res env) as [dir|e]; simpl; [| by rewrite app_nil_r].
  destruct (mito_args m dir env (os_MkdirTemp dir os)) as [[args|e] os1] eqn:Hargs.
  - destruct (mito_args_inl _ _ _ _ _ _ Hargs) as (_ & He & _). simpl in He.
    assert (unkilled (effects os1) acc = unkilled (effects os) acc) as Hsame.
    { rewrite He, !unkilled_app. simpl. apply unkilled_writes. }
    destruct (StdoutPipe_err env); simpl; [by rewrite Hsame, app_nil_r |].
    destruct (StderrPipe_err env); simpl; [by rewrite Hsame, app_nil_r |].
    destruct (Start_res env); simpl; [| by rewrite Hsame, app_nil_r].
    by rewrite unkilled_app, Hsame.
  - destruct (mito_args_inr _ _ _ _ _ _ Hargs) as (_ & (ws & He) & _). simpl in He.
    simpl. rewrite unkilled_app, He, !unkilled_app. simpl.
    by rewrite unkilled_writes, app_nil_r.
Qed.








(** The reaping goroutine of a run stores nil whatever the slot holds: when
    the run has been superseded, the handle of its successor leaves the slot
    although no kill was sent to it. *)
Remark superseded_reaper_clears_slot :
  ∃ s, exec JSON.MarshalIndent superseded sample_system = Some s
       ∧ ps (sys_m s) = None
       ∧ unkilled (effects (sys_os s)) [] = [8].
Proof. eexists. split; [vm_compute; reflexivity | split; reflexivity]. Qed.

(** ** The goroutines: the barrier before [finalize] *)

Section Supervision.

Context {value : Type} (MarshalIndent : value → string + error).

Lemma new_run_barrier l : barrier_held (new_run l).
Proof.
  unfold barrier_held, new_run; simpl.
  repeat split; try done. by destruct (l_reaper l).
Qed.

Lemma step_stdout_barrier r res os r' os' :
  barrier_held r → step_stdout MarshalIndent r res os = Some (r', os') →
  barrier_held r'.
Proof.
  unfold barrier_held, step_stdout. intros (H1 & H2 & H3) Hs.
  destruct (stdout_pc r) eqn:Hpc; try done.
  destruct (stdout_turn MarshalIndent res) as [t|[e|]]; simpl in Hs;
    injection Hs as <- <-; simpl; rewrite ?orb_true_r, ?orb_false_r;
    (repeat split; try done).
  all: try (intros Hd; specialize (H1 Hd); congruence).
  all: destruct (reaper r) as [[p []]|]; try done.
  all: destruct H3 as [Hd _]; specialize (H1 Hd); congruence.
Qed.

Lemma step_stderr_barrier r res os r' os' :
  barrier_held r → step_stderr r res os = Some (r', os') →
  barrier_held r'.
Proof.
  unfold barrier_held, step_stderr. intros (H1 & H2 & H3) Hs.
  destruct (stderr_pc r) eqn:Hpc; try done.
  destruct (stderr_turn res) as [t|[e|]]; simpl in Hs;
    injection Hs as <- <-; simpl; rewrite ?orb_true_r, ?orb_false_r;
    (repeat split; try done).
  all: try (intros Hd; specialize (H2 Hd); congruence).
  all: destruct (reaper r) as [[p []]|]; try done.
  all: destruct H3 as [_ Hd]; specialize (H2 Hd); congruence.
Qed.

Lemma step_receive_barrier r from t r' :
  barrier_held r → step_receive r from = Some (t, r') → barrier_held r'.
Proof.
  unfold barrier_held, step_receive. intros (H1 & H2 & H3) Hs.
  destruct from; [destruct (stdout_pc r) eqn:Hpc | destruct (stderr_pc r) eqn:Hpc];
    try done; injection Hs as <- <-; simpl; (split; [| split]); try done.
  - intros Hd. specialize (H1 Hd). congruence.
  - intros Hd. specialize (H2 Hd). congruence.
Qed.

Lemma step_reaper_barrier r m os r' m' os' :
  barrier_held r → step_reaper r m os = Some (r', m', os') → barrier_held r'.
Proof.
  unfold barrier_held, step_reaper. intros (H1 & H2 & H3) Hs.
  destruct (reaper r) as [[p []]|]; try done.
  - destruct (ctxStdout_done r) eqn:Hd; [| done].
    injection Hs as <- <- <-. simpl. rewrite Hd. auto.
  - destruct (ctxStderr_done r) eqn:Hd; [| done].
    injection Hs as <- <- <-. simpl. rewrite Hd. auto.
  - injection Hs as <- <- <-. simpl. auto.
  - injection Hs as <- <- <-. simpl. auto.
  - injection Hs as <- <- <-. simpl. auto.
Qed.

Lemma step_barrier l s s' :
  Forall barrier_held (runs s) → step MarshalIndent l s = Some s' →
  Forall barrier_held (runs s').
Proof.
  intros Hinv Hs. destruct l as [k env|k|sr d c i l dc|i res|i res|[[i from]|]|i];
    simpl in Hs.
  - destruct (Run_command k env (sys_m s) (sys_os s)) as [[m os] g].
    injection Hs as <-. simpl. apply Forall_app. split; [done |].
    destruct g; [| done]. apply Forall_singleton, new_run_barrier.
  - destruct (Cancel_command k (sys_m s) (sys_os s)). by injection Hs as <-.
  - by injection Hs as <-.
  - destruct (runs s !! i) as [r|] eqn:Hr; [| done]. simpl in Hs.
    destruct (step_stdout MarshalIndent r res (sys_os s)) as [[r' os']|] eqn:Hst; [| done].
    injection Hs as <-. simpl. apply Forall_insert; [done |].
    eapply step_stdout_barrier; [| done]. by eapply Forall_lookup_1.
  - destruct (runs s !! i) as [r|] eqn:Hr; [| done]. simpl in Hs.
    destruct (step_stderr r res (sys_os s)) as [[r' os']|] eqn:Hst; [| done].
    injection Hs as <-. simpl. apply Forall_insert; [done |].
    eapply step_stderr_barrier; [| done]. by eapply Forall_lookup_1.
  - destruct (runs s !! i) as [r|] eqn:Hr; [| done]. simpl in Hs.
    destruct (step_receive r from) as [[t r']|] eqn:Hst; [| done].
    injection Hs as <-. simpl. apply Forall_insert; [done |].
    eapply step_receive_barrier; [| done]. by eapply Forall_lookup_1.
  - by injection Hs as <-.
  - destruct (runs s !! i) as [r|] eqn:Hr; [| done]. simpl in Hs.
    destruct (step_reaper r (sys_m s) (sys_os s)) as [[[r' m'] os']|] eqn:Hst; [| done].
    injection Hs as <-. simpl. apply Forall_insert; [done |].
    eapply step_reaper_barrier; [| done]. by eapply Forall_lookup_1.
Qed.

Lemma exec_barrier tr s s' :
  Forall barrier_held (runs s) → exec MarshalIndent tr s = Some s' →
  Forall barrier_held (runs s').
Proof.
  revert s. induction tr as [|l tr IH]; intros s Hinv He; simpl in He.
  - by injection He as <-.
  - destruct (step MarshalIndent l s) as [s1|] eqn:Hs; [| done]. simpl in He.
    eapply IH; [| done]. by eapply step_barrier.
Qed.

(** A reader fires its [Done] once: after it has returned it makes no
    move. *)
Lemma returned_reader_stays r res sres os :
  (stdout_pc r = Returned → step_stdout MarshalIndent r res os = None)
  ∧ (stderr_pc r = Returned → step_stderr r sres os = None).
Proof.
  unfold step_stdout, step_stderr. split; by intros ->.
Qed.

Lemma step_reaper_flags r m os r' m' os' :
  step_reaper r m os = Some (r', m', os') →
  ctxStdout_done r' = ctxStdout_done r ∧ ctxStderr_done r' = ctxStderr_done r.
Proof.
  unfold step_reaper. intros Hs.
  destruct (reaper r) as [[p []]|]; try done;
    try (destruct (ctxStdout_done r) eqn:Hd; [| done]);
    try (destruct (ctxStderr_done r) eqn:Hd'; [| done]);
    injection Hs as <- <- <-; simpl; by rewrite ?Hd, ?Hd'.
Qed.

Lemma step_receive_flags r from t r' :
  step_receive r from = Some (t, r') →
  ctxStdout_done r' = ctxStdout_done r ∧ ctxStderr_done r' = ctxStderr_done r.
Proof.
  unfold step_receive. intros Hs.
  destruct from; [destruct (stdout_pc r) | destruct (stderr_pc r)]; try done;
    by injection Hs as <- <-.
Qed.

(** A [Done] channel that is closed stays closed. *)
Lemma done_stays l s s' i r :
  step MarshalIndent l s = Some s' →
  runs s !! i = Some r →
  ∃ r', runs s' !! i = Some r'
        ∧ (ctxStdout_done r = true → ctxStdout_done r' = true)
        ∧ (ctxStderr_done r = true → ctxStderr_done r' = true).
Proof.
  intros Hs Hr.
  assert (∀ j r1,
            (ctxStdout_done r = true → ctxStdout_done r1 = true) →
            (ctxStderr_done r = true → ctxStderr_done r1 = true) →
            (j = i → runs s !! j = Some r) →
            ∃ r', <[j := r1]> (runs s) !! i = Some r'
                  ∧ (ctxStdout_done r = true → ctxStdout_done r' = true)
                  ∧ (ctxStderr_done r = true → ctxStderr_done r' = true)) as Hupd.
  { intros j r1 H1 H2 Hj. destruct (decide (j = i)) as [->|Hne].
    - exists r1. split; [| done]. apply list_lookup_insert_eq.
      by eapply lookup_lt_Some.
    - exists r. by rewrite list_lookup_insert_ne. }
  destruct l as [k env|k|sr d c j l dc|j res|j res|[[j from]|]|j]; simpl in Hs.
  - destruct (Run_command k env (sys_m s) (sys_os s)) as [[m os] g].
    injection Hs as <-. simpl. exists r. split; [| done].
    by apply lookup_app_l_Some.
  - destruct (Cancel_command k (sys_m s) (sys_os s)). injection Hs as <-. by exists r.
  - injection Hs as <-. by exists r.
  - destruct (runs s !! j) as [rj|] eqn:Hj; [| done]. simpl in Hs.
    destruct (step_stdout MarshalIndent rj res (sys_os s)) as [[r1 os1]|] eqn:Hst; [| done].
    injection Hs as <-. simpl.
    unfold step_stdout in Hst. destruct (stdout_pc rj); try done.
    destruct (reader_moves (stdout_turn MarshalIndent res) (sys_os s)) as [[pc fired] os2].
    injection Hst as <- <-.
    destruct (decide (j = i)) as [->|Hne].
    + rewrite Hr in Hj. injection Hj as <-. apply Hupd; simpl; try done.
      intros ->. done.
    + exists r. by rewrite list_lookup_insert_ne.
  - destruct (runs s !! j) as [rj|] eqn:Hj; [| done]. simpl in Hs.
    destruct (step_stderr rj res (sys_os s)) as [[r1 os1]|] eqn:Hst; [| done].
    injection Hs as <-. simpl.
    unfold step_stderr in Hst. destruct (stderr_pc rj); try done.
    destruct (reader_moves (stderr_turn res) (sys_os s)) as [[pc fired] os2].
    injection Hst as <- <-.
    destruct (decide (j = i)) as [->|Hne].
    + rewrite Hr in Hj. injection Hj as <-. apply Hupd; simpl; try done.
      intros ->. done.
    + exists r. by rewrite list_lookup_insert_ne.
  - destruct (runs s !! j) as [rj|] eqn:Hj; [| done]. simpl in Hs.
    destruct (step_receive rj from) as [[t r1]|] eqn:Hst; [| done].
    injection Hs as <-. simpl.
    destruct (decide (j = i)) as [->|Hne].
    + rewrite Hr in Hj. injection Hj as <-.
      destruct (step_receive_flags _ _ _ _ Hst) as [Ho Herr].
      apply Hupd; [by rewrite Ho | by rewrite Herr | done].
    + exists r. by rewrite list_lookup_insert_ne.
  - injection Hs as <-. by exists r.
  - destruct (runs s !! j) as [rj|] eqn:Hj; [| done]. simpl in Hs.
    destruct (step_reaper rj (sys_m s) (sys_os s)) as [[[r1 m1] os1]|] eqn:Hst; [| done].
    injection Hs as <-. simpl.
    destruct (decide (j = i)) as [->|Hne].
    + rewrite Hr in Hj. injection Hj as <-.
      destruct (step_reaper_flags _ _ _ _ _ _ Hst) as [Ho Herr].
      apply Hupd; [by rewrite Ho | by rewrite Herr | done].
    + exists r. by rewrite list_lookup_insert_ne.
Qed.

(** C2. From the start of the program and through every sequence of
    moves, when the reaping goroutine of a run stands at one of the
    statements of finalize (the wait, the store of nil, the removal) or
    past them, both readers of that run have fired their [Done] and have
    returned. The goroutine gets past each of its two receives only when
    the channel is closed; a closed channel stays closed and a reader that
    returned makes no further move. When [Cancel] follows [Run] at once,
    the reaping goroutine of the new run cannot move. *)
Theorem finalize_waits_for_both_readers :
  (∀ tr s0 s i r p pc,
     runs s0 = [] →
     exec MarshalIndent tr s0 = Some s →
     runs s !! i = Some r →
     reaper r = Some (p, pc) →
     finalizing pc = true ∨ pc = Reaped →
     ctxStdout_done r = true ∧ ctxStderr_done r = true
     ∧ stdout_pc r = Returned ∧ stderr_pc r = Returned)
  ∧ (∀ r m os r' m' os' p pc,
       step_reaper r m os = Some (r', m', os') →
       reaper r = Some (p, pc) →
       (pc = AwaitStdout → ctxStdout_done r = true ∧ reaper r' = Some (p, AwaitStderr))
       ∧ (pc = AwaitStderr → ctxStderr_done r = true ∧ reaper r' = Some (p, AtWait))
       ∧ (finalizing pc = false → m' = m ∧ os' = os))
  ∧ (∀ l s s' i r,
       step MarshalIndent l s = Some s' →
       runs s !! i = Some r →
       ∃ r', runs s' !! i = Some r'
             ∧ (ctxStdout_done r = true → ctxStdout_done r' = true)
             ∧ (ctxStderr_done r = true → ctxStderr_done r' = true))
  ∧ (∀ s kill_res env k s1 s2 i,
       step MarshalIndent (LRun kill_res env) s = Some s1 →
       step MarshalIndent (LCancel k) s1 = Some s2 →
       (length (runs s) ≤ i)%nat →
       step MarshalIndent (LReaper i) s2 = None).
Proof.
  split; [| split; [| split]].
  - intros tr s0 s i r p pc H0 He Hr Hp Hpc.
    assert (Forall barrier_held (runs s)) as Hinv.
    { eapply exec_barrier; [| done]. rewrite H0. constructor. }
    pose proof (Forall_lookup_1 _ _ _ _ Hinv Hr) as (H1 & H2 & H3).
    rewrite Hp in H3.
    assert (ctxStdout_done r = true ∧ ctxStderr_done r = true) as [Ho Herr].
    { destruct Hpc as [Hpc | ->]; [| done]. by destruct pc. }
    auto.
  - intros r m os r' m' os' p pc Hs Hp. unfold step_reaper in Hs. rewrite Hp in Hs.
    destruct pc; try done.
    + destruct (ctxStdout_done r); [| done]. injection Hs as <- <- <-.
      repeat split; done.
    + destruct (ctxStderr_done r); [| done]. injection Hs as <- <- <-.
      repeat split; done.
  - apply done_stays.
  - intros s kill_res env k s1 s2 i Hrun Hcancel Hi. simpl in Hrun, Hcancel.
    destruct (Run_command kill_res env (sys_m s) (sys_os s)) as [[m os] g].
    injection Hrun as <-. simpl in Hcancel.
    destruct (Cancel_command k m os) as [m2 os2]. injection Hcancel as <-. simpl.
    destruct ((runs s ++ match g with Some l => [new_run l] | None => [] end) !! i)
      as [r|] eqn:Hr; [| done].
    simpl. rewrite lookup_app_r in Hr by done.
    destruct g as [l|]; [| by rewrite lookup_nil in Hr].
    destruct (i - length (runs s)) as [|n]; [| by rewrite lookup_cons, lookup_nil in Hr].
    simpl in Hr. injection Hr as <-.
    unfold step_reaper, new_run. simpl. by destruct (l_reaper l).
Qed.

End Supervision.

Lemma finalize_waits_for_both_readers_witness :
  ∃ r, runs (default sample_system (exec JSON.MarshalIndent killed_at_once sample_system))
         !! 0 = Some r
       ∧ ctxStdout_done r = true ∧ ctxStderr_done r = true
       ∧ stdout_pc r = Returned ∧ stderr_pc r = Returned.
Proof.
  eexists. split; [vm_compute; reflexivity |].
  eapply (proj1 (finalize_waits_for_both_readers JSON.MarshalIndent)
            killed_at_once sample_system _ 0 _ 7 AtWait);
    [reflexivity | vm_compute; reflexivity | vm_compute; reflexivity
    | reflexivity | left; reflexivity].
Defined.

(** ** The slot after a run without program text *)

Section Slot.

Context {value : Type} (MarshalIndent : value → string + error).





End Slot.


(** ** The stream readers *)

Lemma normal_end_iff e :
  normal_end e = true ↔ e = io_EOF ∨ errors_As_PathError e = Some fs_ErrClosed.
Proof.
  unfold normal_end, is_closed_pipe. split.
  - intros H. apply orb_true_iff in H as [H | H].
    + left. by destruct e.
    + right. destruct (errors_As_PathError e) as [[]|]; done.
  - intros [-> | ->]; [done |]. apply orb_true_r.
Qed.

Lemma stderr_turn_Stop e :
  stderr_turn (Stop e) = if normal_end e then Return None else Return (Some e).
Proof.
  unfold stderr_turn, Scanner_Err, normal_end.
  destruct (is_EOF e) eqn:He; simpl; [done |].
  by rewrite He.
Qed.

(** The loop over answers that all lead to a send, followed by more. *)
Lemma reader_loop_sends {R : Type} (body : R → turn) (before : list R) (ts : list text)
    (after : list R) :
  Forall2 (λ r t, body r = Send t) before ts →
  sent (reader_loop body (before ++ after)) = ts ++ sent (reader_loop body after)
  ∧ logged (reader_loop body (before ++ after)) = logged (reader_loop body after)
  ∧ returned (reader_loop body (before ++ after)) = returned (reader_loop body after)
  ∧ reads (reader_loop body (before ++ after))
    = (length before + reads (reader_loop body after))%nat.
Proof.
  induction 1 as [|r t before ts Hr _ IH]; simpl; [done |].
  rewrite Hr. simpl. destruct IH as (-> & -> & -> & ->). done.
Qed.

(** The loop ends with the first answer that makes it return: what comes
    after is never asked for. *)
Lemma reader_loop_returns {R : Type} (body : R → turn) (r : R) (l : option error)
    (after : list R) :
  body r = Return l →
  reader_loop body (r :: after)
  = {| sent := []; logged := match l with Some e => [Error e] | None => [] end;
       returned := true; reads := 1 |}.
Proof. simpl. intros ->. by destruct l. Qed.

Section Readers.

Context {value : Type} (MarshalIndent : value → string + error).

(** The moves of a reader and the loop run to its end agree: what the
    loop sent is what the ticker put into the display, what it logged is
    what went to the log, and the reader's [Done] is closed when the loop
    returned. *)
Lemma stdout_moves_reader_loop i rs s r :
  runs s !! i = Some r → stdout_pc r = Reading →
  ∃ s' r',
    exec MarshalIndent (stdout_moves MarshalIndent i rs) s = Some s'
    ∧ display (sys_m s')
      = display (sys_m s) ++ map shown (sent (stdout_reader MarshalIndent rs))
    ∧ logs (sys_os s') = logs (sys_os s) ++ logged (stdout_reader MarshalIndent rs)
    ∧ runs s' !! i = Some r'
    ∧ ctxStdout_done r' = ctxStdout_done r || returned (stdout_reader MarshalIndent rs)
    ∧ stdout_pc r'
      = (if returned (stdout_reader MarshalIndent rs) then Returned else Reading).
Proof.
  unfold stdout_reader. revert s r.
  induction rs as [|a rs IH]; intros s r Hr Hpc.
  - exists s, r. simpl. rewrite !app_nil_r, orb_false_r. done.
  - assert (i < length (runs s))%nat as Hlt by (by eapply lookup_lt_Some).
    simpl. rewrite Hr. simpl. unfold step_stdout. rewrite Hpc.
    destruct (stdout_turn MarshalIndent a) as [t|[e|]] eqn:Ha; simpl.
    + rewrite list_lookup_insert_eq by done. simpl.
      rewrite list_insert_insert_eq.
      match goal with
      | |- context [exec _ _ ?s1] =>
          destruct (IH s1 {| run_dir := run_dir r; run_keep := run_keep r;
                             stdout_pc := Reading; stderr_pc := stderr_pc r;
                             ctxStdout_done := ctxStdout_done r || false;
                             ctxStderr_done := ctxStderr_done r;
                             reaper := reaper r |})
            as (s' & r' & He & Hd & Hl & Hr' & Hdone & Hpc')
      end.
      { simpl. by apply list_lookup_insert_eq. }
      { done. }
      exists s', r'. rewrite He. simpl in *.
      rewrite Hd, Hl, <- app_assoc. simpl in Hdone. rewrite orb_false_r in Hdone.
      done.
    + eexists _, _. split; [done |]. simpl.
      rewrite list_lookup_insert_eq by done. by rewrite app_nil_r.
    + eexists _, _. split; [done |]. simpl.
      rewrite list_lookup_insert_eq by done. by rewrite !app_nil_r.
Qed.

Lemma stderr_moves_reader_loop i rs s r :
  runs s !! i = Some r → stderr_pc r = Reading →
  ∃ s' r',
    exec MarshalIndent (stderr_moves i rs) s = Some s'
    ∧ display (sys_m s') = display (sys_m s) ++ map shown (sent (stderr_reader rs))
    ∧ logs (sys_os s') = logs (sys_os s) ++ logged (stderr_reader rs)
    ∧ runs s' !! i = Some r'
    ∧ ctxStderr_done r' = ctxStderr_done r || returned (stderr_reader rs)
    ∧ stderr_pc r' = (if returned (stderr_reader rs) then Returned else Reading).
Proof.
  unfold stderr_reader. revert s r.
  induction rs as [|a rs IH]; intros s r Hr Hpc.
  - exists s, r. simpl. rewrite !app_nil_r, orb_false_r. done.
  - assert (i < length (runs s))%nat as Hlt by (by eapply lookup_lt_Some).
    simpl. rewrite Hr. simpl. unfold step_stderr. rewrite Hpc.
    destruct (stderr_turn a) as [t|[e|]] eqn:Ha; simpl.
    + rewrite list_lookup_insert_eq by done. simpl.
      rewrite list_insert_insert_eq.
      match goal with
      | |- context [exec _ _ ?s1] =>
          destruct (IH s1 {| run_dir := run_dir r; run_keep := run_keep r;
                             stdout_pc := stdout_pc r; stderr_pc := Reading;
                             ctxStdout_done := ctxStdout_done r;
                             ctxStderr_done := ctxStderr_done r || false;
                             reaper := reaper r |})
            as (s' & r' & He & Hd & Hl & Hr' & Hdone & Hpc')
      end.
      { simpl. by apply list_lookup_insert_eq. }
      { done. }
      exists s', r'. rewrite He. simpl in *.
      rewrite Hd, Hl, <- app_assoc. simpl in Hdone. rewrite orb_false_r in Hdone.
      done.
    + eexists _, _. split; [done |]. simpl.
      rewrite list_lookup_insert_eq by done. by rewrite app_nil_r.
    + eexists _, _. split; [done |]. simpl.
      rewrite list_lookup_insert_eq by done. by rewrite !app_nil_r.
Qed.

(** C5. In both reader loops a read result that is exactly [io.EOF], or
    whose first [PathError] carries [fs.ErrClosed], is a normal end: the
    reader returns, its [Done] fires, nothing is logged. Every other
    error of a read or of the parser is logged and ends the loop as well;
    so does an error of the encoder. Whatever ends the loop, the answers
    after it are never asked for, and a reader that returned makes no
    further move. As moves of the goroutines: a reader that is reading and
    gets an error returns, closes its [Done], and the log grows by that
    error unless it is a normal end. *)
Theorem reader_end_of_stream :
  (∀ e, normal_end e = true ↔ e = io_EOF ∨ errors_As_PathError e = Some fs_ErrClosed)
  ∧ (∀ e os,
       normal_end e = true →
       stdout_turn MarshalIndent (inr e) = Return None
       ∧ stderr_turn (Stop e) = Return None
       ∧ reader_moves (Return None) os = (Returned, true, os))
  ∧ (∀ e os,
       normal_end e = false →
       stdout_turn MarshalIndent (inr e) = Return (Some e)
       ∧ stderr_turn (Stop e) = Return (Some e)
       ∧ reader_moves (Return (Some e)) os = (Returned, true, log_Println e os))
  ∧ (∀ v e, MarshalIndent v = inr e → stdout_turn MarshalIndent (inl v) = Return (Some e))
  ∧ (∀ (before : list (value + error)) ts e after,
       Forall2 (λ r t, stdout_turn MarshalIndent r = Send t) before ts →
       stdout_reader MarshalIndent (before ++ inr e :: after)
       = {| sent := ts; logged := if normal_end e then [] else [Error e];
            returned := true; reads := S (length before) |})
  ∧ (∀ (before : list scan) ts e after,
       Forall2 (λ r t, stderr_turn r = Send t) before ts →
       stderr_reader (before ++ Stop e :: after)
       = {| sent := ts; logged := if normal_end e then [] else [Error e];
            returned := true; reads := S (length before) |})
  ∧ (∀ r res sres os,
       (stdout_pc r = Returned → step_stdout MarshalIndent r res os = None)
       ∧ (stderr_pc r = Returned → step_stderr r sres os = None))
  ∧ (∀ r e os,
       stdout_pc r = Reading →
       ∃ r', step_stdout MarshalIndent r (inr e) os
             = Some (r', if normal_end e then os else log_Println e os)
             ∧ stdout_pc r' = Returned ∧ ctxStdout_done r' = true)
  ∧ (∀ r e os,
       stderr_pc r = Reading →
       ∃ r', step_stderr r (Stop e) os
             = Some (r', if normal_end e then os else log_Println e os)
             ∧ stderr_pc r' = Returned ∧ ctxStderr_done r' = true).
Proof.
  split; [exact normal_end_iff |].
  split; [| split; [| split; [| split; [| split; [| split; [| split]]]]]].
  - intros e os He. rewrite stderr_turn_Stop. simpl. by rewrite He.
  - intros e os He. rewrite stderr_turn_Stop. simpl. by rewrite He.
  - intros v e Hv. simpl. by rewrite Hv.
  - intros before ts e after Hsend. unfold stdout_reader.
    destruct (reader_loop_sends _ _ _ (inr e :: after) Hsend) as (Hs & Hl & Hr & Hn).
    assert (stdout_turn MarshalIndent (inr e)
            = Return (if normal_end e then None else Some e)) as Hturn.
    { simpl. by destruct (normal_end e). }
    rewrite (reader_loop_returns _ _ _ after Hturn) in Hs, Hl, Hr, Hn. simpl in *.
    destruct (reader_loop (stdout_turn MarshalIndent) (before ++ inr e :: after))
      as [s l r n]. simpl in *. subst.
    rewrite app_nil_r. f_equal; [by destruct (normal_end e) | lia].
  - intros before ts e after Hsend. unfold stderr_reader.
    destruct (reader_loop_sends _ _ _ (Stop e :: after) Hsend) as (Hs & Hl & Hr & Hn).
    assert (stderr_turn (Stop e)
            = Return (if normal_end e then None else Some e)) as Hturn.
    { rewrite stderr_turn_Stop. by destruct (normal_end e). }
    rewrite (reader_loop_returns _ _ _ after Hturn) in Hs, Hl, Hr, Hn. simpl in *.
    destruct (reader_loop stderr_turn (before ++ Stop e :: after))
      as [s l r n]. simpl in *. subst.
    rewrite app_nil_r. f_equal; [by destruct (normal_end e) | lia].
  - intros r res sres os. apply returned_reader_stays.
  - intros r e os Hpc. unfold step_stdout. rewrite Hpc. simpl.
    destruct (normal_end e); simpl; eexists; (split; [done |]); simpl;
      by rewrite orb_true_r.
  - intros r e os Hpc. unfold step_stderr. rewrite Hpc, stderr_turn_Stop.
    destruct (normal_end e); simpl; eexists; (split; [done |]); simpl;
      by rewrite orb_true_r.
Qed.

End Readers.

Lemma reader_end_of_stream_witness :
  stderr_reader ([Token "line1"; Token "line2"] ++ Stop io_EOF :: [Token "never read"])
  = {| sent := [ {| text_data := "line1"; text_tag := "error" |};
                 {| text_data := "line2"; text_tag := "error" |} ];
       logged := []; returned := true; reads := 3 |}.
Proof.
  apply (proj1 (proj2 (proj2 (proj2 (proj2 (proj2 (reader_end_of_stream JSON.MarshalIndent))))))
           [Token "line1"; Token "line2"]).
  repeat constructor.
Defined.

(** C4. Whatever the decoder and the encoder are: the records that
    [Decode] yields one after the other, each of which the encoder renders,
    are sent as one [output] text each, in the order of arrival, with the
    rendering as payload; this holds whatever follows them, and when the
    stream then ends nothing more is sent. On the stream of the two objects
    with members a:1 and b:2 the reader sends exactly two [output] texts,
    the indented renderings of the first and of the second object, logs
    nothing and returns; decoding each rendering gives back the record it
    was made from. Run as moves of the program after a [Run], with the
    ticker receiving each send, the two renderings are what the display
    gets, in this order. *)
Theorem records_become_output_events :
  (∀ (value : Type) (MarshalIndent : value → string + error)
     (vs : list value) (bs : list string) (rest : list (value + error)),
     Forall2 (λ v b, MarshalIndent v = inl b) vs bs →
     sent (stdout_reader MarshalIndent (map inl vs ++ rest))
     = map (λ b, {| text_data := b; text_tag := "output" |}) bs
       ++ sent (stdout_reader MarshalIndent rest))
  ∧ (∀ (value : Type) (MarshalIndent : value → string + error)
       (vs : list value) (bs : list string) e (after : list (value + error)),
       Forall2 (λ v b, MarshalIndent v = inl b) vs bs →
       sent (stdout_reader MarshalIndent (map inl vs ++ inr e :: after))
       = map (λ b, {| text_data := b; text_tag := "output" |}) bs)
  ∧ JSON.Decoder two_records io_EOF
    = [inl (JSON.Object [("a", JSON.Number 1)]);
       inl (JSON.Object [("b", JSON.Number 2)]);
       inr io_EOF]
  ∧ stdout_reader JSON.MarshalIndent (JSON.Decoder two_records io_EOF)
    = {| sent := [ {| text_data := rendered "a" "1"; text_tag := "output" |};
                   {| text_data := rendered "b" "2"; text_tag := "output" |} ];
         logged := []; returned := true; reads := 3 |}
  ∧ JSON.Decoder (rendered "a" "1") io_EOF
    = [inl (JSON.Object [("a", JSON.Number 1)]); inr io_EOF]
  ∧ JSON.Decoder (rendered "b" "2") io_EOF
    = [inl (JSON.Object [("b", JSON.Number 2)]); inr io_EOF]
  ∧ (∃ s, exec JSON.MarshalIndent
            (LRun None sample_env
             :: stdout_moves JSON.MarshalIndent 0 (JSON.Decoder two_records io_EOF))
            sample_system = Some s
          ∧ display (sys_m s)
            = [ shown {| text_data := rendered "a" "1"; text_tag := "output" |};
                shown {| text_data := rendered "b" "2"; text_tag := "output" |} ]
          ∧ logs (sys_os s) = []).
Proof.
  assert (∀ (value : Type) (MarshalIndent : value → string + error)
            (vs : list value) (bs : list string) (rest : list (value + error)),
            Forall2 (λ v b, MarshalIndent v = inl b) vs bs →
            sent (stdout_reader MarshalIndent (map inl vs ++ rest))
            = map (λ b, {| text_data := b; text_tag := "output" |}) bs
              ++ sent (stdout_reader MarshalIndent rest)) as Hgen.
  { intros value MarshalIndent vs bs rest Hall. unfold stdout_reader.
    apply reader_loop_sends.
    induction Hall as [|v b vs bs Hv _ IH]; simpl; constructor; [| exact IH].
    unfold stdout_turn. by rewrite Hv. }
  split; [exact Hgen |]. split.
  - intros value MarshalIndent vs bs e after Hall.
    rewrite (Hgen _ _ _ _ _ Hall). unfold stdout_reader. simpl.
    destruct (normal_end e); simpl; apply app_nil_r.
  - repeat split; try (vm_compute; reflexivity).
    eexists. split; [vm_compute; reflexivity |]. split; vm_compute; reflexivity.
Qed.

Lemma records_become_output_events_witness :
  sent (stdout_reader JSON.MarshalIndent
          (map inl [JSON.Array [JSON.Null]; JSON.Bool true] ++ [inr closed_pipe]))
  = map (λ b, {| text_data := b; text_tag := "output" |})
        [JSON.encode 0 (JSON.Array [JSON.Null]); "true"].
Proof.
  apply (proj1 (proj2 records_become_output_events) JSON.any JSON.MarshalIndent).
  repeat constructor.
Defined.

(** ** Errors after the spawn *)

Lemma mito_printError k m keep env os :
  mito (printError k m) keep env os = mito m keep env os.
Proof. by destruct k. Qed.

Lemma mito_logs m keep env os : logs (mito m keep env os).2 = logs os.
Proof.
  unfold mito.
  destruct (decide (src m = "")); [done |].
  destruct (MkdirTemp_res env) as [dir|e]; [| done].
  destruct (mito_args m dir env (os_MkdirTemp dir os)) as [[args|e] os1] eqn:Hargs.
  - destruct (mito_args_inl _ _ _ _ _ _ Hargs) as (_ & _ & _ & Hl). simpl in Hl.
    destruct (StdoutPipe_err env); [done |].
    destruct (StderrPipe_err env); [done |].
    by destruct (Start_res env).
  - by destruct (mito_args_inr _ _ _ _ _ _ Hargs) as (_ & _ & Hl).
Qed.

Lemma reader_loop_sent {R : Type} (body : R → turn) (rs : list R) (t : text) :
  In t (sent (reader_loop body rs)) → ∃ r, In r rs ∧ body r = Send t.
Proof.
  induction rs as [|r rs IH]; simpl; [done |].
  destruct (body r) as [t'|[e|]] eqn:Hr; simpl; try done.
  intros [-> | Hin]; [by exists r; auto |].
  destruct (IH Hin) as (r' & Hr' & Hb). exists r'. auto.
Qed.

(** The kill of a reaped process fails, and [Cancel] shows the failure in
    the display with the error tag; it logs nothing. *)
Lemma kill_failure_is_displayed :
  let after := Cancel_command (Some process_done) idle_miko blank_os in
  display after.1
  = [{| text_data := "os: process already finished" +:+ newline; text_tag := "error" |}]
  ∧ logs after.2 = []
  ∧ ¬ (display after.1 = display idle_miko ∧ In (Error process_done) (logs after.2)).
Proof.
  simpl. split; [done |]. split; [done |]. intros [H _]. discriminate H.
Qed.

Section AfterSpawn.

Context {value : Type} (MarshalIndent : value → string + error).

(** A move of a reader touches neither the slot nor the display nor the
    disk; it can only add to the log. *)
Lemma reader_move_is_silent i s s' :
  (∀ res, step MarshalIndent (LDecode i res) s = Some s' →
     sys_m s' = sys_m s ∧ fs (sys_os s') = fs (sys_os s)
     ∧ effects (sys_os s') = effects (sys_os s))
  ∧ (∀ res, step MarshalIndent (LScan i res) s = Some s' →
       sys_m s' = sys_m s ∧ fs (sys_os s') = fs (sys_os s)
       ∧ effects (sys_os s') = effects (sys_os s)).
Proof.
  split; intros res Hs; simpl in Hs;
    (destruct (runs s !! i) as [r|]; [| done]); simpl in Hs.
  - unfold step_stdout in Hs. destruct (stdout_pc r); try done.
    destruct (stdout_turn MarshalIndent res) as [t|[e|]]; simpl in Hs;
      by injection Hs as <-.
  - unfold step_stderr in Hs. destruct (stderr_pc r); try done.
    destruct (stderr_turn res) as [t|[e|]]; simpl in Hs;
      by injection Hs as <-.
Qed.

(** C8, amended to what the program does. An error of the decoder or of a read
    makes its reader return without sending anything: it goes to the log,
    or nowhere when it is a normal end of stream; the move leaves the slot
    and the display as they were. Every text the record reader sends is
    tagged [output] and is the rendering of a decoded record; every text
    the diagnostic reader sends is tagged [error] and is a line of the
    engine's diagnostic stream. A failure to deliver the kill does not
    change what [mito] returns and is sent on no channel either, but it is
    not logged: the command inserts its text into the display with the
    error tag, both in [Cancel] and in [Run]. *)
Theorem stream_errors_logged_kill_failure_displayed :
  (∀ e,
     stdout_turn MarshalIndent (inr e) = Return (if normal_end e then None else Some e)
     ∧ stderr_turn (Stop e) = Return (if normal_end e then None else Some e))
  ∧ (∀ i s s',
       (∀ res, step MarshalIndent (LDecode i res) s = Some s' → sys_m s' = sys_m s)
       ∧ (∀ res, step MarshalIndent (LScan i res) s = Some s' → sys_m s' = sys_m s))
  ∧ (∀ rs t,
       In t (sent (stdout_reader MarshalIndent rs)) →
       text_tag t = "output" ∧ ∃ v, In (inl v) rs ∧ MarshalIndent v = inl (text_data t))
  ∧ (∀ rs t,
       In t (sent (stderr_reader rs)) →
       text_tag t = "error" ∧ In (Token (text_data t)) rs)
  ∧ (∀ e m os p,
       ps m = Some p →
       Cancel_command (Some e) m os
       = (display_Insert {| text_data := Error e +:+ newline; text_tag := "error" |} m,
          do_effect (EKill p) os))
  ∧ (∀ e env m os p,
       ps m = Some p →
       let after := Run_command (Some e) env m os in
       logs after.1.2 = logs os
       ∧ (∃ more, display after.1.1
                  = display m
                    ++ {| text_data := Error e +:+ newline; text_tag := "error" |} :: more)
       ∧ ps after.1.1 = ret_ps (mito m false env (do_effect (EKill p) os)).1)
  ∧ (∀ k m keep env os, mito (printError k m) keep env os = mito m keep env os).
Proof.
  split; [| split; [| split; [| split; [| split; [| split]]]]].
  - intros e. rewrite stderr_turn_Stop. simpl. by destruct (normal_end e).
  - intros i s s'. destruct (reader_move_is_silent i s s') as [H1 H2].
    split; intros res Hs; [by apply (H1 res) | by apply (H2 res)].
  - intros rs t Hin. apply reader_loop_sent in Hin as (r & Hr & Hb).
    unfold stdout_turn in Hb. destruct r as [v|e].
    + destruct (MarshalIndent v) as [b|e] eqn:Hv; [| done].
      injection Hb as <-. simpl. split; [done |]. by exists v.
    + by destruct (normal_end e).
  - intros rs t Hin. apply reader_loop_sent in Hin as (r & Hr & Hb).
    destruct r as [line|e].
    + simpl in Hb. injection Hb as <-. done.
    + rewrite stderr_turn_Stop in Hb. by destruct (normal_end e).
  - intros e m os p Hps. unfold Cancel_command. by rewrite Hps.
  - intros e env m os p Hps. simpl.
    rewrite Run_command_unfold. unfold Cancel_command. rewrite Hps.
    pose proof (mito_logs (printError (Some e) m) false env (do_effect (EKill p) os)) as Hl.
    pose proof (mito_printError (Some e) m false env (do_effect (EKill p) os)) as Hm.
    destruct (mito (printError (Some e) m) false env (do_effect (EKill p) os))
      as [r os2]. simpl in *.
    split; [done |]. split.
    + destruct (ret_err r) as [e'|]; simpl.
      * eexists. by rewrite <- app_assoc.
      * by exists [].
    + rewrite ps_printError. simpl. by rewrite <- Hm.
  - apply mito_printError.
Qed.

End AfterSpawn.

Lemma stream_errors_logged_kill_failure_displayed_witness :
  Cancel_command (Some process_done) idle_miko blank_os
  = (display_Insert {| text_data := Error process_done +:+ newline; text_tag := "error" |}
       idle_miko,
     do_effect (EKill 4) blank_os).
Proof.
  apply (proj1 (proj2 (proj2 (proj2 (proj2
           (stream_errors_logged_kill_failure_displayed JSON.MarshalIndent)))))).
  reflexivity.
Defined.

(** ** The [Format] command *)

Section Formatting.

Context (TrimSpace : string → string)
        (run_celfmt : string → celfmt_answer)
        (Indent : string → string + error).

Lemma printError_inputs e m :
  src (printError e m) = src m ∧ data (printError e m) = data m
  ∧ cfg (printError e m) = cfg m ∧ ps (printError e m) = ps m
  ∧ insecure (printError e m) = insecure m
  ∧ logRequests (printError e m) = logRequests m
  ∧ dumpCrash (printError e m) = dumpCrash m.
Proof. by destruct e. Qed.

(** X1. The [Format] command never empties a pane: a program text, or a
    data text, that was not empty is not empty afterwards, whatever
    [celfmt] and [json.Indent] answer. It leaves the config, the slot and
    the options alone, and adds at most one text to the display, tagged
    [error]. *)
Theorem Format_keeps_panes_filled (m : miko) :
  let m' := Format_command TrimSpace run_celfmt Indent m in
  (src m ≠ "" → src m' ≠ "")
  ∧ (data m ≠ "" → data m' ≠ "")
  ∧ cfg m' = cfg m ∧ ps m' = ps m
  ∧ insecure m' = insecure m ∧ logRequests m' = logRequests m
  ∧ dumpCrash m' = dumpCrash m
  ∧ (display m' = display m
     ∨ ∃ e, display m'
            = display m ++ [{| text_data := Error e +:+ newline; text_tag := "error" |}]).
Proof.
  unfold Format_command, celfmt, jsonfmt. simpl.
  repeat (match goal with
          | |- context [decide ?P] => destruct (decide P)
          | |- context [celfmt_err ?a] => destruct (celfmt_err a)
          | |- context [Indent ?x] => destruct (Indent x)
          end; simpl).
  all: repeat split; eauto.
  right. by eexists (Opaque _).
Qed.

(** X2. When [celfmt] fails on a program text that is not blank, the
    [Format] command shows the failure and does nothing else: the data is
    not formatted, [json.Indent] is not consulted, no pane changes. What
    it shows is the standard error of [celfmt] after the word celfmt, or
    the error of the run when the standard error is empty. *)
Theorem Format_stops_at_celfmt_failure (m : miko) (err : error) :
  TrimSpace (src m) ≠ "" →
  celfmt_err (run_celfmt (src m)) = Some err →
  Format_command TrimSpace run_celfmt Indent m
  = printError
      (Some (if decide (celfmt_stderr (run_celfmt (src m)) = "") then err
             else Opaque ("celfmt: " +:+ celfmt_stderr (run_celfmt (src m)))))
      m.
Proof.
  intros Hs He. unfold Format_command, celfmt. simpl.
  destruct (decide (TrimSpace (src m) = "")); [done |]. rewrite He.
  by destruct (decide (celfmt_stderr (run_celfmt (src m)) = "")).
Qed.

(** X3. With a blank program text and a blank data text the [Format]
    command changes nothing at all, and neither [celfmt] nor [json.Indent]
    has a say. *)
Theorem Format_blank_is_noop (m : miko) :
  TrimSpace (src m) = "" →
  TrimSpace (data m) = "" →
  Format_command TrimSpace run_celfmt Indent m = m.
Proof.
  intros Hs Hd. unfold Format_command, celfmt, jsonfmt. simpl.
  repeat (match goal with
          | |- context [decide ?P] => destruct (decide P)
          end; simpl); done.
Qed.

(** X4. The [Format] command is not all or nothing: when [celfmt]
    succeeds and the data is refused by [json.Indent], the program text has
    already been replaced by the trimmed output of [celfmt] (if that is
    not empty), the data stays as it was and the error is shown. *)
Theorem Format_bad_json_keeps_formatted_source (m : miko) (err : error) :
  TrimSpace (src m) ≠ "" →
  celfmt_err (run_celfmt (src m)) = None →
  TrimSpace (data m) ≠ "" →
  Indent (data m) = inr err →
  let s := TrimSpace (celfmt_stdout (run_celfmt (src m))) in
  Format_command TrimSpace run_celfmt Indent m
  = printError (Some err) (if decide (s = "") then m else set_src s m).
Proof.
  intros Hs He Hd Hi. unfold Format_command, celfmt, jsonfmt. simpl.
  destruct (decide (TrimSpace (src m) = "")); [done |]. rewrite He.
  destruct (decide (TrimSpace (celfmt_stdout (run_celfmt (src m))) = "")); simpl;
    rewrite decide_False by done; by rewrite Hi.
Qed.

End Formatting.

Lemma Format_stops_at_celfmt_failure_witness :
  Format_command trim_blanks failing_celfmt same_Indent edited_miko
  = printError (Some (Opaque "celfmt: ERROR: 1:1: syntax error")) edited_miko.
Proof.
  apply (Format_stops_at_celfmt_failure trim_blanks failing_celfmt same_Indent
           edited_miko (Opaque "exit status 1")); [discriminate | reflexivity].
Defined.

Lemma Format_blank_is_noop_witness :
  Format_command trim_blanks failing_celfmt refusing_Indent
    (set_src "  " (set_data newline idle_miko))
  = set_src "  " (set_data newline idle_miko).
Proof.
  apply Format_blank_is_noop; reflexivity.
Defined.

Lemma Format_bad_json_keeps_formatted_source_witness :
  Format_command trim_blanks echo_celfmt refusing_Indent edited_miko
  = printError (Some (Opaque "invalid character 'x' looking for beginning of value"))
      (set_src "state.n + 1" edited_miko).
Proof.
  apply (Format_bad_json_keeps_formatted_source trim_blanks echo_celfmt refusing_Indent
           edited_miko); [discriminate | reflexivity | discriminate | reflexivity].
Defined.

(** ** The [Snarf] command and the loading of an archive *)

Lemma string_app_assoc (a b c : string) : (a +:+ b) +:+ c = a +:+ (b +:+ c).
Proof.
  induction a as [|x a IH]; [done |].
  change (String x ((a +:+ b) +:+ c) = String x (a +:+ (b +:+ c))). by rewrite IH.
Qed.

Lemma string_app_nil_r (a : string) : a +:+ "" = a.
Proof.
  induction a as [|x a IH]; [done |].
  change (String x (a +:+ "") = String x a). by rewrite IH.
Qed.

Ltac split_panes m :=
  destruct (decide (src m = "")), (decide (data m = "")), (decide (cfg m = "")),
    (decide (display_Text m = "")).

(** X5. The [Snarf] command packs the four panes in a fixed order under
    their fixed names, and leaves out every pane that is empty: no file of
    the archive is empty and no name comes twice. After [Clear Output] the
    archive has no output file. *)
Theorem Snarf_files_shape (m : miko) :
  Snarf_files m
  = filter (λ f, Data f ≠ "")
      [ {| Name := "src.cel"; Data := src m |};
        {| Name := "data.json"; Data := data m |};
        {| Name := "cfg.yaml"; Data := cfg m |};
        {| Name := "out.json"; Data := display_Text m |} ]
  ∧ NoDup (map Name (Snarf_files m))
  ∧ Forall (λ f, Data f ≠ "") (Snarf_files m)
  ∧ Forall (λ f, Name f ≠ "out.json") (Snarf_files (Clear_command m)).
Proof.
  assert (∀ m, Snarf_files m
               = filter (λ f, Data f ≠ "")
                   [ {| Name := "src.cel"; Data := src m |};
                     {| Name := "data.json"; Data := data m |};
                     {| Name := "cfg.yaml"; Data := cfg m |};
                     {| Name := "out.json"; Data := display_Text m |} ]) as Heq.
  { clear m. intros m. unfold Snarf_files. split_panes m; simpl;
      repeat first [ rewrite filter_cons_True by done
                   | rewrite filter_cons_False by (simpl; intros H; by apply H) ];
      by rewrite filter_nil. }
  split; [apply Heq |]. split; [| split].
  - unfold Snarf_files. split_panes m; simpl; compute_done.
  - rewrite Heq. apply Forall_forall. intros f Hf.
    by apply list_elem_of_filter in Hf as [Hf _].
  - unfold Snarf_files, Clear_command, display_Text. simpl.
    destruct (decide (src m = "")), (decide (data m = "")), (decide (cfg m = ""));
      simpl; repeat constructor; done.
Qed.

Lemma load_files_spec (files : list File) (m : miko) :
  src (load_files files m) = src m +:+ named_data "src.cel" files
  ∧ data (load_files files m) = data m +:+ named_data "data.json" files
  ∧ cfg (load_files files m) = cfg m +:+ named_data "cfg.yaml" files
  ∧ ps (load_files files m) = ps m
  ∧ display (load_files files m) = display m
  ∧ insecure (load_files files m) = insecure m
  ∧ logRequests (load_files files m) = logRequests m
  ∧ dumpCrash (load_files files m) = dumpCrash m.
Proof.
  unfold load_files. revert m.
  induction files as [|[n d] files IH]; intros m; simpl.
  - by rewrite !string_app_nil_r.
  - destruct (IH (load_file {| Name := n; Data := d |} m))
      as (-> & -> & -> & -> & -> & -> & -> & ->).
    unfold load_file. simpl.
    destruct (decide (n = "src.cel")) as [->|Hs]; simpl.
    { by rewrite string_app_assoc. }
    destruct (decide (n = "data.json")) as [->|Hd]; simpl.
    { by rewrite string_app_assoc. }
    destruct (decide (n = "cfg.yaml")) as [->|Hc]; simpl.
    { by rewrite string_app_assoc. }
    done.
Qed.

(** X6. Loading the files of an archive puts the data of every file
    called src.cel after what the program pane holds, in the order of the
    archive, and likewise for data.json and cfg.yaml; files of any other
    name are passed over; the slot, the display and the options are not
    touched. *)
Theorem load_files_appends (files : list File) (m : miko) :
  src (load_files files m) = src m +:+ named_data "src.cel" files
  ∧ data (load_files files m) = data m +:+ named_data "data.json" files
  ∧ cfg (load_files files m) = cfg m +:+ named_data "cfg.yaml" files
  ∧ ps (load_files files m) = ps m
  ∧ display (load_files files m) = display m
  ∧ insecure (load_files files m) = insecure m
  ∧ logRequests (load_files files m) = logRequests m
  ∧ dumpCrash (load_files files m) = dumpCrash m.
Proof. apply load_files_spec. Qed.


Section Starting.

Context (Parse : string → list File) (ReadFile : string → string + error).


Lemma main_usage_iff (fl : flags) :
  main Parse ReadFile fl = Usage
  ↔ flag_tw fl = 0
    ∨ (flag_txtar fl ≠ ""
       ∧ (flag_data fl ≠ "" ∨ flag_cfg fl ≠ "" ∨ flag_src fl ≠ "")).
Proof.
  unfold main, insert_file.
  destruct (bool_decide (flag_txtar fl ≠ "")
            && (bool_decide (flag_data fl ≠ "") || bool_decide (flag_cfg fl ≠ "")
                || bool_decide (flag_src fl ≠ ""))
            || bool_decide (flag_tw fl = 0)) eqn:Hc.
  - split; [intros _ | done].
    apply orb_true_iff in Hc as [Hc | Hc].
    + right. apply andb_true_iff in Hc as [Ht Hc]. apply bool_decide_eq_true in Ht.
      split; [done |].
      apply orb_true_iff in Hc as [Hc | Hc];
        [apply orb_true_iff in Hc as [Hc | Hc] |];
        apply bool_decide_eq_true in Hc; auto.
    + left. by apply bool_decide_eq_true in Hc.
  - split.
    + intros H. exfalso. revert H.
      repeat (match goal with
              | |- context [decide ?P] => destruct (decide P)
              | |- context [ReadFile ?x] => destruct (ReadFile x)
              end; simpl); done.
    + intros H. exfalso.
      apply orb_false_iff in Hc as [Hc Htw]. apply bool_decide_eq_false in Htw.
      destruct H as [H | (Ht & H)]; [done |].
      apply andb_false_iff in Hc as [Hc | Hc].
      * by apply bool_decide_eq_false in Hc.
      * apply orb_false_iff in Hc as [Hc Hs]. apply orb_false_iff in Hc as [Hd Hcf].
        apply bool_decide_eq_false in Hs, Hd, Hcf. tauto.
Qed.


(** X9. When [main] opens the window, the slot and the display are
    empty, the options are off and the tab width is not zero. Without
    [-txtar] every pane holds the content of the file its flag names, or
    nothing when the flag is not given; so a file that cannot be read never
    leads to a window. With [-txtar] the other three flags are not given
    and the panes hold what loading the parsed archive gives. *)
Theorem main_window (fl : flags) (m : miko) :
  main Parse ReadFile fl = Window m →
  ps m = None ∧ display m = []
  ∧ insecure m = false ∧ logRequests m = false ∧ dumpCrash m = false
  ∧ flag_tw fl ≠ 0
  ∧ (flag_txtar fl = "" →
       (flag_src fl = "" ∧ src m = "" ∨ flag_src fl ≠ "" ∧ ReadFile (flag_src fl) = inl (src m))
       ∧ (flag_data fl = "" ∧ data m = ""
          ∨ flag_data fl ≠ "" ∧ ReadFile (flag_data fl) = inl (data m))
       ∧ (flag_cfg fl = "" ∧ cfg m = ""
          ∨ flag_cfg fl ≠ "" ∧ ReadFile (flag_cfg fl) = inl (cfg m)))
  ∧ (flag_txtar fl ≠ "" →
       flag_src fl = "" ∧ flag_data fl = "" ∧ flag_cfg fl = ""
       ∧ ∃ b, ReadFile (flag_txtar fl) = inl b ∧ m = load_files (Parse b) newMiko).
Proof.
  intros Hmain.
  assert (main Parse ReadFile fl ≠ Usage) as Hnot by (by rewrite Hmain).
  rewrite main_usage_iff in Hnot.
  revert Hmain. unfold main, insert_file.
  destruct (bool_decide (flag_txtar fl ≠ "")
            && (bool_decide (flag_data fl ≠ "") || bool_decide (flag_cfg fl ≠ "")
                || bool_decide (flag_src fl ≠ ""))
            || bool_decide (flag_tw fl = 0)); [done |].
  destruct (decide (flag_txtar fl = "")) as [Ht|Ht].
  - destruct (decide (flag_src fl = "")) as [Hs|Hs];
      [| destruct (ReadFile (flag_src fl)) as [bs|] eqn:Hrs; [| done]];
      simpl;
      (destruct (decide (flag_data fl = "")) as [Hd|Hd];
       [| destruct (ReadFile (flag_data fl)) as [bd|] eqn:Hrd; [| done]]);
      simpl;
      (destruct (decide (flag_cfg fl = "")) as [Hc|Hc];
       [| destruct (ReadFile (flag_cfg fl)) as [bc|] eqn:Hrc; [| done]]);
      simpl; intros [= <-]; simpl;
      (repeat split; try done; try tauto; try (intros; by auto)).
  - assert (flag_src fl = "" ∧ flag_data fl = "" ∧ flag_cfg fl = "") as (Hs & Hd & Hc).
    { destruct (decide (flag_src fl = "")), (decide (flag_data fl = "")),
        (decide (flag_cfg fl = "")); try done; exfalso; apply Hnot; right; auto. }
    destruct (ReadFile (flag_txtar fl)) as [b|] eqn:Hr; [| done].
    rewrite !decide_True by done.
    intros [= <-].
    destruct (load_files_spec (Parse b) newMiko) as (_ & _ & _ & Hp & Hdi & Hi & Hl & Hdu).
    repeat split; try done; try tauto.
    by exists b.
Qed.

End Starting.


Lemma main_window_witness :
  ps (set_src "1 + 1" newMiko) = None
  ∧ display (set_src "1 + 1" newMiko) = [].
Proof.
  pose proof (main_window sample_Parse sample_ReadFile
                {| flag_txtar := ""; flag_src := "prog.cel"; flag_data := "";
                   flag_cfg := ""; flag_tw := 4 |}
                (set_src "1 + 1" newMiko) eq_refl) as H.
  split; [exact (proj1 H) | exact (proj1 (proj2 H))].
Defined.

(** ** More on the commands and the goroutines *)

(** X10. The [Cancel] command leaves the handle in the slot: a second
    [Cancel] sends the kill to the same handle again. It touches no file
    and no input, and it logs nothing. *)
Theorem Cancel_keeps_slot (k1 k2 : option error) (m : miko) (os : os_state)
    (p : Process) :
  ps m = Some p →
  let once := Cancel_command k1 m os in
  let twice := Cancel_command k2 once.1 once.2 in
  ps once.1 = Some p
  ∧ effects once.2 = effects os ++ [EKill p]
  ∧ ps twice.1 = Some p
  ∧ effects twice.2 = effects os ++ [EKill p; EKill p]
  ∧ fs twice.2 = fs os ∧ logs twice.2 = logs os
  ∧ src twice.1 = src m ∧ data twice.1 = data m ∧ cfg twice.1 = cfg m.
Proof.
  intros Hps. unfold Cancel_command. rewrite Hps. simpl.
  rewrite ps_printError, Hps. simpl. rewrite <- app_assoc.
  destruct k1, k2; done.
Qed.

Lemma Cancel_keeps_slot_witness :
  effects (Cancel_command None
             (Cancel_command (Some process_done) idle_miko blank_os).1
             (Cancel_command (Some process_done) idle_miko blank_os).2).2
  = [EKill 4; EKill 4].
Proof.
  exact (proj1 (proj2 (proj2 (proj2
           (Cancel_keeps_slot (Some process_done) None idle_miko blank_os 4 eq_refl))))).
Defined.

(** A call of [mito] whose writes all succeed gets to the pipes with the
    payload files on disk. *)
Lemma mito_args_succeeds m dir env os :
  data m = "" ∨ WriteFile_data env = WriteOk →
  cfg m = "" ∨ WriteFile_cfg env = WriteOk →
  WriteFile_src env = WriteOk →
  ∃ os1, mito_args m dir env os = (inl (engine_args m dir), os1).
Proof.
  intros Hd Hc Hs.
  destruct (mito_args m dir env os) as [[args|e] os1] eqn:Hargs.
  - destruct (mito_args_inl _ _ _ _ _ _ Hargs) as (-> & _). by exists os1.
  - exfalso. revert Hargs. run_mito_args. rewrite Hs.
    destruct (decide (data m = "")) as [|Hdne], (decide (cfg m = "")) as [|Hcne];
      try (destruct Hd as [|Hd]; [done |]; rewrite Hd);
      try (destruct Hc as [|Hc]; [done |]; rewrite Hc);
      done.
Qed.

(** X14. When the inputs were written and then a pipe cannot be made or
    the engine cannot be started, [mito] returns that error and no handle,
    and the workspace stays behind: the directory is not removed, the files
    written are still on disk, nothing was spawned, and no reaping
    goroutine was started that would remove them later. *)
Theorem start_failure_keeps_workspace m keep env os dir e :
  src m ≠ "" →
  MkdirTemp_res env = inl dir →
  workspace_files dir os = ∅ →
  data m = "" ∨ WriteFile_data env = WriteOk →
  cfg m = "" ∨ WriteFile_cfg env = WriteOk →
  WriteFile_src env = WriteOk →
  StdoutPipe_err env = Some e
  ∨ (StdoutPipe_err env = None ∧ StderrPipe_err env = Some e)
  ∨ (StdoutPipe_err env = None ∧ StderrPipe_err env = None ∧ Start_res env = inr e) →
  let r := (mito m keep env os).1 in
  let os' := (mito m keep env os).2 in
  ret_ps r = None ∧ ret_err r = Some e
  ∧ effects os' = effects os ++ EMkdirTemp dir :: map write_effect (nonempty_payloads m dir)
  ∧ size (workspace_files dir os')
    = 1 + (if decide (data m = "") then 0 else 1) + (if decide (cfg m = "") then 0 else 1)
  ∧ match goroutines r with Some l => l_reaper l = None | None => True end.
Proof.
  intros Hsrc Hdir Hfresh Hd Hc Hs Hfail. unfold mito.
  destruct (decide (src m = "")); [done |]. rewrite Hdir.
  destruct (mito_args_succeeds m dir env (os_MkdirTemp dir os) Hd Hc Hs) as [os1 Hargs].
  rewrite Hargs.
  destruct (mito_args_inl _ _ _ _ _ _ Hargs) as (_ & He & Hf & _). simpl in He, Hf.
  rewrite <- (payload_count m dir).
  assert (size (workspace_files dir os1) = length (nonempty_payloads m dir)) as Hsize
    by (by apply (workspace_after_writes m dir os)).
  rewrite <- app_assoc in He. simpl in He.
  destruct Hfail as [H1 | [(H1 & H2) | (H1 & H2 & H3)]]; rewrite H1; try rewrite H2;
    try rewrite H3; simpl; done.
Qed.

Lemma start_failure_keeps_workspace_witness :
  ret_err (mito sample_miko false no_engine_env blank_os).1
  = Some (Opaque "exec: mito: executable file not found in $PATH")
  ∧ size (workspace_files "/tmp/miko-1" (mito sample_miko false no_engine_env blank_os).2) = 2.
Proof.
  pose proof (start_failure_keeps_workspace sample_miko false no_engine_env blank_os
                "/tmp/miko-1" (Opaque "exec: mito: executable file not found in $PATH")
                ltac:(discriminate) eq_refl eq_refl (or_intror eq_refl) (or_introl eq_refl)
                eq_refl (or_intror (or_intror (conj eq_refl (conj eq_refl eq_refl))))) as H.
  split; [exact (proj1 (proj2 H)) | exact (proj1 (proj2 (proj2 (proj2 H))))].
Defined.

Lemma display_printError e m : display (printError e m) = display m ++ shown_error e.
Proof. destruct e; simpl; [done | by rewrite app_nil_r]. Qed.

Lemma Run_command_frame (kill_res : option error) (env : mito_env)
    (m : miko) (os : os_state) :
  let after := Run_command kill_res env m os in
  let started := mito m false env (Cancel_command kill_res m os).2 in
  logs after.1.2 = logs os
  ∧ display after.1.1
    = display m
      ++ (match ps m with Some _ => shown_error kill_res | None => [] end)
      ++ shown_error (ret_err started.1)
  ∧ src after.1.1 = src m ∧ data after.1.1 = data m ∧ cfg after.1.1 = cfg m
  ∧ insecure after.1.1 = insecure m ∧ logRequests after.1.1 = logRequests m
  ∧ dumpCrash after.1.1 = dumpCrash m.
Proof.
  simpl. rewrite Run_command_unfold. unfold Cancel_command.
  destruct (ps m) as [p|] eqn:Hps; simpl.
  - rewrite mito_printError.
    pose proof (mito_logs m false env (do_effect (EKill p) os)) as Hl.
    destruct (mito m false env (do_effect (EKill p) os)) as [r os2]. simpl in *.
    rewrite display_printError. simpl. rewrite display_printError, <- app_assoc.
    destruct (printError_inputs (ret_err r) (set_ps (ret_ps r) (printError kill_res m)))
      as (-> & -> & -> & _ & -> & -> & ->). simpl.
    destruct (printError_inputs kill_res m) as (-> & -> & -> & _ & -> & -> & ->).
    done.
  - pose proof (mito_logs m false env os) as Hl.
    destruct (mito m false env os) as [r os2]. simpl in *.
    rewrite display_printError. simpl.
    destruct (printError_inputs (ret_err r) (set_ps (ret_ps r) m))
      as (-> & -> & -> & _ & -> & -> & ->). done.
Qed.

(** X15. The [Run] command never writes to the log. What it adds to the
    display is the failure of the kill, when the slot held a handle and the
    kill failed, and then the error of the start, when there is one; it
    changes no input and no option. *)
Theorem Run_reports_in_display (kill_res : option error) (env : mito_env)
    (m : miko) (os : os_state) :
  let after := Run_command kill_res env m os in
  let started := mito m false env (Cancel_command kill_res m os).2 in
  logs after.1.2 = logs os
  ∧ display after.1.1
    = display m
      ++ (match ps m with Some _ => shown_error kill_res | None => [] end)
      ++ shown_error (ret_err started.1)
  ∧ src after.1.1 = src m ∧ data after.1.1 = data m ∧ cfg after.1.1 = cfg m
  ∧ insecure after.1.1 = insecure m ∧ logRequests after.1.1 = logRequests m
  ∧ dumpCrash after.1.1 = dumpCrash m.
Proof. apply Run_command_frame. Qed.

(** X16. Once both readers of a run have fired their [Done], its reaping
    goroutine runs to its end without waiting for anything else: it waits
    for the child, stores nil in the slot and removes the workspace unless
    [keep] is set. Until the record reader has fired it does not move at
    all, and until the diagnostic reader has fired it stops at its second
    receive with nothing done. *)
Theorem reaper_runs_to_end (r : run) (p : Process) (m : miko) (os : os_state) (n : nat) :
  reaper r = Some (p, AwaitStdout) →
  (ctxStdout_done r = true → ctxStderr_done r = true →
     reaper_runs (5 + n) r m os
     = (set_reaper (Some (p, Reaped)) r,
        (finalize (run_keep r) (run_dir r) p m os).1,
        (finalize (run_keep r) (run_dir r) p m os).2))
  ∧ (ctxStdout_done r = false → reaper_runs n r m os = (r, m, os))
  ∧ (ctxStdout_done r = true → ctxStderr_done r = false →
       reaper_runs (S n) r m os = (set_reaper (Some (p, AwaitStderr)) r, m, os)).
Proof.
  intros Hr. destruct r as [d k so se co ce rp]. simpl in Hr. subst rp.
  simpl. split; [| split].
  - intros -> ->. cbn. destruct n; cbn; unfold finalize; by destruct k.
  - intros ->. by destruct n.
  - intros -> ->. cbn. by destruct n.
Qed.

Lemma reaper_runs_to_end_witness :
  reaper_runs 5
    {| run_dir := "/tmp/miko-1"; run_keep := false; stdout_pc := Returned;
       stderr_pc := Returned; ctxStdout_done := true; ctxStderr_done := true;
       reaper := Some (7, AwaitStdout) |}
    (set_ps (Some 7) sample_miko) blank_os
  = ({| run_dir := "/tmp/miko-1"; run_keep := false; stdout_pc := Returned;
        stderr_pc := Returned; ctxStdout_done := true; ctxStderr_done := true;
        reaper := Some (7, Reaped) |},
     sample_miko,
     os_RemoveAll "/tmp/miko-1" (do_effect (EWait 7) blank_os)).
Proof.
  exact (proj1 (reaper_runs_to_end
                  {| run_dir := "/tmp/miko-1"; run_keep := false; stdout_pc := Returned;
                     stderr_pc := Returned; ctxStdout_done := true; ctxStderr_done := true;
                     reaper := Some (7, AwaitStdout) |}
                  7 (set_ps (Some 7) sample_miko) blank_os 0 eq_refl) eq_refl eq_refl).
Defined.

Section Handoff.

Context {value : Type} (MarshalIndent : value → string + error).

(** X11. The store of the reaping goroutine is unconditional. When it
    comes while the slot holds a handle, of this run or of a later one, the
    slot is empty afterwards and no kill was sent: a [Cancel] then does
    nothing, and the next [Run] sends no kill either, so the handles that
    were not killed before are still not killed after it, beside the one it
    spawns; the handle that was in the slot is among them if no kill had
    reached it. *)
Theorem superseded_reaper_disarms_cancel (s : system) (i : nat) (r : run)
    (p q : Process) :
  runs s !! i = Some r →
  reaper r = Some (p, AtStore) →
  ps (sys_m s) = Some q →
  ∃ s1,
    step MarshalIndent (LReaper i) s = Some s1
    ∧ ps (sys_m s1) = None
    ∧ sys_os s1 = sys_os s
    ∧ (∀ k, step MarshalIndent (LCancel k) s1 = Some s1)
    ∧ (∀ k env,
         unkilled (effects (Run_command k env (sys_m s1) (sys_os s1)).1.2) []
         = unkilled (effects (sys_os s)) []
           ++ slot (Run_command k env (sys_m s1) (sys_os s1)).1.1)
    ∧ (∀ k env,
         q ∈ unkilled (effects (sys_os s)) [] →
         q ∈ unkilled (effects (Run_command k env (sys_m s1) (sys_os s1)).1.2) []).
Proof.
  intros Hr Hp Hq. simpl. rewrite Hr. simpl. unfold step_reaper. rewrite Hp. simpl.
  eexists. split; [done |]. simpl.
  assert (∀ k env,
            unkilled
              (effects (Run_command k env (set_ps None (sys_m s)) (sys_os s)).1.2) []
            = unkilled (effects (sys_os s)) []
              ++ slot (Run_command k env (set_ps None (sys_m s)) (sys_os s)).1.1) as Hrun.
  { intros k env. rewrite Run_command_unfold. unfold Cancel_command. simpl.
    pose proof (mito_unkilled (set_ps None (sys_m s)) false env (sys_os s) []) as Hu.
    destruct (mito (set_ps None (sys_m s)) false env (sys_os s)) as [res os2].
    simpl in *. rewrite Hu. unfold slot. by rewrite ps_printError. }
  repeat split; [exact Hrun |].
  intros k env Hin. rewrite Hrun. apply elem_of_app. by left.
Qed.

(** X12. A text a reader is sending is never lost and never
    replaced: after any move of the program the reader is still sending
    the same text, unless the move is the ticker's receive from this very
    reader, and then this text, with a line feed, is what the display
    gets. *)
Theorem text_in_flight_stays (l : label) (s s' : system) (i : nat) (r : run)
    (t : text) :
  step MarshalIndent l s = Some s' →
  runs s !! i = Some r →
  (stdout_pc r = Sending t →
     (l = LTick (Some (i, Stdout))
      ∧ display (sys_m s') = display (sys_m s) ++ [shown t])
     ∨ (∃ r', runs s' !! i = Some r' ∧ stdout_pc r' = Sending t))
  ∧ (stderr_pc r = Sending t →
       (l = LTick (Some (i, Stderr))
        ∧ display (sys_m s') = display (sys_m s) ++ [shown t])
       ∨ (∃ r', runs s' !! i = Some r' ∧ stderr_pc r' = Sending t)).
Proof.
  intros Hs Hr.
  assert (i < length (runs s))%nat as Hlt by (by eapply lookup_lt_Some).
  assert (∀ j r1,
            (j = i → stdout_pc r1 = stdout_pc r ∧ stderr_pc r1 = stderr_pc r) →
            (stdout_pc r = Sending t →
               ∃ r', <[j := r1]> (runs s) !! i = Some r' ∧ stdout_pc r' = Sending t)
            ∧ (stderr_pc r = Sending t →
                 ∃ r', <[j := r1]> (runs s) !! i = Some r' ∧ stderr_pc r' = Sending t))
    as Hupd.
  { intros j r1 Hj. destruct (decide (j = i)) as [->|Hne].
    - destruct (Hj eq_refl) as [Ho He].
      split; intros Hpc; exists r1; (split; [by apply list_lookup_insert_eq | congruence]).
    - split; intros Hpc; exists r; by rewrite list_lookup_insert_ne. }
  destruct l as [k env|k|sr d c j l dc|j res|j res|[[j from]|]|j]; simpl in Hs.
  - destruct (Run_command k env (sys_m s) (sys_os s)) as [[m os] g].
    injection Hs as <-. simpl.
    split; intros Hpc; right; exists r; (split; [by apply lookup_app_l_Some | done]).
  - destruct (Cancel_command k (sys_m s) (sys_os s)). injection Hs as <-. simpl.
    split; intros Hpc; right; by exists r.
  - injection Hs as <-. simpl. split; intros Hpc; right; by exists r.
  - destruct (runs s !! j) as [rj|] eqn:Hj; [| done]. simpl in Hs.
    destruct (step_stdout MarshalIndent rj res (sys_os s)) as [[r1 os1]|] eqn:Hst; [| done].
    injection Hs as <-. simpl.
    unfold step_stdout in Hst. destruct (stdout_pc rj) eqn:Hpcj; try done.
    destruct (reader_moves (stdout_turn MarshalIndent res) (sys_os s)) as [[pc fired] os2].
    injection Hst as <- <-.
    destruct (decide (j = i)) as [->|Hne].
    + rewrite Hr in Hj. injection Hj as <-. split; intros Hpc.
      * congruence.
      * right. eexists. split; [by apply list_lookup_insert_eq | done].
    + split; intros Hpc; right; exists r; by rewrite list_lookup_insert_ne.
  - destruct (runs s !! j) as [rj|] eqn:Hj; [| done]. simpl in Hs.
    destruct (step_stderr rj res (sys_os s)) as [[r1 os1]|] eqn:Hst; [| done].
    injection Hs as <-. simpl.
    unfold step_stderr in Hst. destruct (stderr_pc rj) eqn:Hpcj; try done.
    destruct (reader_moves (stderr_turn res) (sys_os s)) as [[pc fired] os2].
    injection Hst as <- <-.
    destruct (decide (j = i)) as [->|Hne].
    + rewrite Hr in Hj. injection Hj as <-. split; intros Hpc.
      * right. eexists. split; [by apply list_lookup_insert_eq | done].
      * congruence.
    + split; intros Hpc; right; exists r; by rewrite list_lookup_insert_ne.
  - destruct (runs s !! j) as [rj|] eqn:Hj; [| done]. simpl in Hs.
    destruct (step_receive rj from) as [[t1 r1]|] eqn:Hst; [| done].
    injection Hs as <-. simpl.
    destruct (decide (j = i)) as [->|Hne].
    + rewrite Hr in Hj. injection Hj as <-.
      unfold step_receive in Hst.
      destruct from.
      * destruct (stdout_pc r) eqn:Hpc0; try done. injection Hst as <- <-.
        split; intros Hpc.
        -- left. injection Hpc as ->. done.
        -- right. eexists. split; [by apply list_lookup_insert_eq | done].
      * destruct (stderr_pc r) eqn:Hpc0; try done. injection Hst as <- <-.
        split; intros Hpc.
        -- right. eexists. split; [by apply list_lookup_insert_eq | done].
        -- left. injection Hpc as ->. done.
    + split; intros Hpc; right; exists r; by rewrite list_lookup_insert_ne.
  - injection Hs as <-. split; intros Hpc; right; by exists r.
  - destruct (runs s !! j) as [rj|] eqn:Hj; [| done]. simpl in Hs.
    destruct (step_reaper rj (sys_m s) (sys_os s)) as [[[r1 m1] os1]|] eqn:Hst; [| done].
    injection Hs as <-. simpl.
    assert (stdout_pc r1 = stdout_pc rj ∧ stderr_pc r1 = stderr_pc rj) as [Ho He].
    { unfold step_reaper in Hst.
      destruct (reaper rj) as [[p0 []]|]; try done;
        try (destruct (ctxStdout_done rj); [| done]);
        try (destruct (ctxStderr_done rj); [| done]);
        by injection Hst as <- <- <-. }
    destruct (Hupd j r1) as [H1 H2].
    { intros ->. rewrite Hr in Hj. injection Hj as <-. done. }
    split; intros Hpc; right; auto.
Qed.

(** X13. The moves of a reader and its loop agree. If a reader of run
    [i] is reading and then gets the answers [rs], the ticker receiving
    each text before the next read, the display grows by exactly the texts
    the loop sends on [rs], each with its line feed and in that order, the
    log grows by what the loop logs, and the reader's [Done] is closed when
    the loop has returned. *)
Theorem readers_reach_the_display :
  (∀ i rs s r,
     runs s !! i = Some r → stdout_pc r = Reading →
     ∃ s' r',
       exec MarshalIndent (stdout_moves MarshalIndent i rs) s = Some s'
       ∧ display (sys_m s')
         = display (sys_m s) ++ map shown (sent (stdout_reader MarshalIndent rs))
       ∧ logs (sys_os s') = logs (sys_os s) ++ logged (stdout_reader MarshalIndent rs)
       ∧ runs s' !! i = Some r'
       ∧ ctxStdout_done r'
         = ctxStdout_done r || returned (stdout_reader MarshalIndent rs))
  ∧ (∀ i rs s r,
       runs s !! i = Some r → stderr_pc r = Reading →
       ∃ s' r',
         exec MarshalIndent (stderr_moves i rs) s = Some s'
         ∧ display (sys_m s') = display (sys_m s) ++ map shown (sent (stderr_reader rs))
         ∧ logs (sys_os s') = logs (sys_os s) ++ logged (stderr_reader rs)
         ∧ runs s' !! i = Some r'
         ∧ ctxStderr_done r' = ctxStderr_done r || returned (stderr_reader rs)).
Proof.
  split; intros i rs s r Hr Hpc.
  - destruct (stdout_moves_reader_loop MarshalIndent i rs s r Hr Hpc)
      as (s' & r' & H1 & H2 & H3 & H4 & H5 & _).
    by exists s', r'.
  - destruct (stderr_moves_reader_loop MarshalIndent i rs s r Hr Hpc)
      as (s' & r' & H1 & H2 & H3 & H4 & H5 & _).
    by exists s', r'.
Qed.

End Handoff.

Lemma superseded_reaper_disarms_cancel_witness :
  ∃ s1,
    step JSON.MarshalIndent (LReaper 0) superseded_state = Some s1
    ∧ ps (sys_m s1) = None
    ∧ sys_os s1 = sys_os superseded_state
    ∧ (∀ k, step JSON.MarshalIndent (LCancel k) s1 = Some s1)
    ∧ (∀ k env,
         unkilled (effects (Run_command k env (sys_m s1) (sys_os s1)).1.2) []
         = unkilled (effects (sys_os superseded_state)) []
           ++ slot (Run_command k env (sys_m s1) (sys_os s1)).1.1)
    ∧ (∀ k env,
         8 ∈ unkilled (effects (sys_os superseded_state)) [] →
         8 ∈ unkilled (effects (Run_command k env (sys_m s1) (sys_os s1)).1.2) []).
Proof.
  eapply (superseded_reaper_disarms_cancel JSON.MarshalIndent superseded_state 0 _ 7 8);
    [vm_compute; reflexivity | reflexivity | reflexivity].
Defined.

Lemma text_in_flight_stays_witness :
  let s := default sample_system
             (exec JSON.MarshalIndent
                [LRun None sample_env; LScan 0 (Token "warning")] sample_system) in
  let s' := default sample_system (step JSON.MarshalIndent (LCancel None) s) in
  ∃ r', runs s' !! 0 = Some r'
        ∧ stderr_pc r' = Sending {| text_data := "warning"; text_tag := "error" |}.
Proof.
  simpl.
  destruct (proj2 (text_in_flight_stays JSON.MarshalIndent (LCancel None)
                     (default sample_system
                        (exec JSON.MarshalIndent
                           [LRun None sample_env; LScan 0 (Token "warning")] sample_system))
                     (default sample_system
                        (step JSON.MarshalIndent (LCancel None)
                           (default sample_system
                              (exec JSON.MarshalIndent
                                 [LRun None sample_env; LScan 0 (Token "warning")]
                                 sample_system))))
                     0
                     {| run_dir := "/tmp/miko-1"; run_keep := false;
                        stdout_pc := Reading;
                        stderr_pc := Sending {| text_data := "warning"; text_tag := "error" |};
                        ctxStdout_done := false; ctxStderr_done := false;
                        reaper := Some (7, AwaitStdout) |}
                     {| text_data := "warning"; text_tag := "error" |}
                     eq_refl eq_refl) eq_refl) as [[Hl _] | H].
  - discriminate Hl.
  - exact H.
Defined.

(** ** What a start and the moves of the program leave alone *)

Lemma payload_writes_outside m dir (f : gmap string string) path :
  inside dir path = false →
  foldl (λ f kv, <[kv.1 := kv.2]> f) f (nonempty_payloads m dir) !! path = f !! path.
Proof.
  intros Hout.
  assert (∀ name, filepath_Join dir name ≠ path) as Hne.
  { intros name <-. by rewrite inside_Join in Hout. }
  unfold nonempty_payloads.
  destruct (decide (data m = "")), (decide (cfg m = "")); simpl;
    by rewrite ?lookup_insert_ne.
Qed.

(** X17. A call of [mito], whatever its outcome, changes no file outside
    the directory [os.MkdirTemp] gave it; when no directory was made it
    changes no file at all. *)
Theorem mito_only_touches_workspace m keep env os path :
  (∀ dir, MkdirTemp_res env = inl dir → inside dir path = false) →
  fs (mito m keep env os).2 !! path = fs os !! path.
Proof.
  intros Hout. unfold mito.
  destruct (decide (src m = "")); [done |].
  destruct (MkdirTemp_res env) as [dir|e]; [| done].
  specialize (Hout dir eq_refl).
  destruct (mito_args m dir env (os_MkdirTemp dir os)) as [[args|e] os1] eqn:Hargs.
  - destruct (mito_args_inl _ _ _ _ _ _ Hargs) as (_ & _ & Hf & _). simpl in Hf.
    assert (fs os1 !! path = fs os !! path) as Hsame
      by (rewrite Hf; by apply payload_writes_outside).
    destruct (StdoutPipe_err env); [done |].
    destruct (StderrPipe_err env); [done |].
    by destruct (Start_res env).
  - destruct (mito_args_inr _ _ _ _ _ _ Hargs) as (Hagree & _).
    change (fs (os_RemoveAll dir os1) !! path = fs os !! path).
    rewrite lookup_RemoveAll, Hout. by apply Hagree.
Qed.

Lemma mito_only_touches_workspace_witness :
  fs (mito sample_miko false full_disk_env notes_os).2 !! "/home/u/notes.txt"
  = fs notes_os !! "/home/u/notes.txt".
Proof.
  apply (mito_only_touches_workspace sample_miko false full_disk_env notes_os
           "/home/u/notes.txt").
  intros dir [= <-]. reflexivity.
Defined.

Section Display.

Context {value : Type} (MarshalIndent : value → string + error).


End Display.

